(** * Fletcher-Reeves conjugate gradient: [ncg_optimizer/fr.py]

    A shallow embedding of the class [FR] (its constructor and its [step]
    method) and the properties of it that the specification states.

    - Python numbers handed to the constructor (ints and finite floats) are
      rationals [Q]; their comparisons are exact, as Python's are.
    - Tensors, 0-dimensional tensors (scalars) and the stacked matrix of
      [_get_A] are the carriers of an interface [Torch]; every general theorem
      holds for any implementation of that interface.  [Float64] implements it
      with binary64 numbers and lists, and is what the concrete runs use.
    - The line searches of [Line_Search] and the differentiation of [torch]
      are interfaces too ([LineSearch], [Autograd]): the theorems hold for
      any functions in their place.
    - A parameter is an object with identity: a [pid].  The memory [heap] maps
      it to its [data] and its [grad]; [self.state] is a dictionary from
      parameters to per-parameter dictionaries.  A per-parameter dictionary has
      at most the six keys the code writes, each of one type, so it is a record
      of optional fields: a missing key is [None], and reading it raises
      [KeyError].
    - [step] has three ways out of the loop body: falling through to the next
      parameter, [return loss], and an exception.  All three keep the writes
      made so far, as the mutable dictionaries of the source do. *)

From Stdlib Require Import ZArith QArith Qround Lqa Floats List Bool.
From stdpp Require Import base option gmap strings list.
Import ListNotations.

Local Open Scope string_scope.

(** ** Python values and exceptions *)

Inductive pyval :=
  | PyNum (q : Q)
  | PyStr (s : string).

(** [ValueError fmt (Some v)] is [ValueError(fmt.format(v))], and
    [ValueError msg None] is [ValueError(msg)].  [RuntimeError] is what
    [torch.autograd.grad] raises when it cannot differentiate. *)
Inductive exn :=
  | ValueError (fmt : string) (v : option pyval)
  | KeyError (key : string)
  | UnboundLocalError (name : string)
  | RuntimeError.

(** [x < y] on Python numbers. *)
Definition Qltb (x y : Q) : bool := negb (Qle_bool y x).

(** [x % 1]: Python's modulo has the sign of the divisor, so it is
    [x - floor x]. *)
Definition mod1 (x : Q) : Q := x - inject_Z (Qfloor x).

(** ** The constructor, [FR.__init__] *)

Definition pid := nat.

(** The [defaults] dictionary built at the end of [__init__]; every parameter
    group holds one. *)
Record defaults := mkDefaults {
  eps : Q;
  line_search : string;
  c1 : Q;
  c2 : Q;
  lr : Q;
  rho : Q;
  eta : Q;
  amax : Q;
  max_ls : Q
}.

Definition line_search_options : list string :=
  ["Armijo"; "Wolfe"; "Strong_Wolfe"; "None"].

Definition quadratic_warning : string :=
  "Unless loss is a quadratic function, this is not correct".

(** What the argument checks of [__init__] (lines 63-95) do: the first failing
    check raises, and choosing ['None'] warns. *)
Definition check_arguments (cfg : defaults) : exn + list string :=
  if Qltb (eps cfg) 0 then
    inl (ValueError "Invalid epsilon value: {}" (Some (PyNum (eps cfg))))
  else if negb (bool_decide (line_search cfg ∈ line_search_options)) then
    inl (ValueError "Invalid line search: {}" (Some (PyStr (line_search cfg))))
  else
    let warnings :=
      if bool_decide (line_search cfg = "None") then [quadratic_warning] else [] in
    if negb (Qltb 0 (c1 cfg) && Qltb (c1 cfg) (1 # 2)) then
      inl (ValueError "Invalid c1 value: {}" (Some (PyNum (c1 cfg))))
    else if negb (Qltb (c1 cfg) (c2 cfg) && Qltb (c2 cfg) 1) then
      inl (ValueError "Invalid c2 value: {}" (Some (PyNum (c2 cfg))))
    else if Qltb (lr cfg) 0 then
      inl (ValueError "Invalid lr value: {}" (Some (PyNum (lr cfg))))
    else if negb (Qltb 0 (rho cfg) && Qltb (rho cfg) 1) then
      inl (ValueError "Invalid rho value: {}" (Some (PyNum (rho cfg))))
    else if negb (Qltb 1 (eta cfg)) then
      inl (ValueError "Invalid eta value: {}" (Some (PyNum (eta cfg))))
    else if negb (Qltb 0 (amax cfg)) then
      inl (ValueError "Invalid amax value: {}" (Some (PyNum (amax cfg))))
    else if negb (Qeq_bool (mod1 (max_ls cfg)) 0) || Qle_bool (max_ls cfg) 0 then
      inl (ValueError "Invalid max_ls value: {}" (Some (PyNum (max_ls cfg))))
    else inr warnings.

(** The ranges of section 3 of the specification. *)
Definition documented_ranges (cfg : defaults) : Prop :=
  (0 < eps cfg)%Q
  /\ line_search cfg ∈ line_search_options
  /\ (0 < c1 cfg)%Q /\ (c1 cfg < 1 # 2)%Q
  /\ (c1 cfg < c2 cfg)%Q /\ (c2 cfg < 1)%Q
  /\ (0 <= lr cfg)%Q
  /\ (0 < rho cfg)%Q /\ (rho cfg < 1)%Q
  /\ (1 < eta cfg)%Q
  /\ (0 < amax cfg)%Q
  /\ exists n : Z, (0 < n)%Z /\ (max_ls cfg == inject_Z n)%Q.

(** The ranges the constructor accepts: the documented ones, but for [eps],
    which may be 0. *)
Definition accepted_ranges (cfg : defaults) : Prop :=
  (0 <= eps cfg)%Q
  /\ line_search cfg ∈ line_search_options
  /\ (0 < c1 cfg)%Q /\ (c1 cfg < 1 # 2)%Q
  /\ (c1 cfg < c2 cfg)%Q /\ (c2 cfg < 1)%Q
  /\ (0 <= lr cfg)%Q
  /\ (0 < rho cfg)%Q /\ (rho cfg < 1)%Q
  /\ (1 < eta cfg)%Q
  /\ (0 < amax cfg)%Q
  /\ exists n : Z, (0 < n)%Z /\ (max_ls cfg == inject_Z n)%Q.

Definition warnings_of (cfg : defaults) : list string :=
  if bool_decide (line_search cfg = "None") then [quadratic_warning] else [].

(** ** Tensors

    The operations of [torch] that [fr.py] calls.  [scalar] is what
    [torch.norm], [torch.dot] and the division of two such values return (a
    0-dimensional tensor), and what a line search returns as step length. *)
Class Torch := {
  scalar : Type;
  tensor : Type;
  matrix : Type;
  (** [torch.norm(t)], the l2 norm *)
  norm : tensor -> scalar;
  (** [-t] *)
  neg : tensor -> tensor;
  (** [t + u] *)
  add : tensor -> tensor -> tensor;
  (** [s * t] *)
  mul : scalar -> tensor -> tensor;
  (** [s / r] *)
  div : scalar -> scalar -> scalar;
  (** [torch.dot(t, u)], and [torch.matmul(t, u)] of two 1-dimensional
      tensors, which is their dot product *)
  dot : tensor -> tensor -> scalar;
  (** [torch.matmul(A, t)] *)
  matmul : matrix -> tensor -> tensor;
  (** the truth value of [s < x] for a Python number [x] *)
  lt : scalar -> Q -> bool;
  (** the contents of [t] after [t.add_(u, alpha=s)]: [t + s * u] *)
  add_ : tensor -> tensor -> scalar -> tensor
}.

(** ** Memory *)

(** A parameter object: [p.data] and [p.grad] ([None] when undefined). *)
Record param `{Torch} := mkParam {
  data : tensor;
  grad : option tensor
}.
Arguments mkParam {_} _ _.

Definition heap `{Torch} : Type := pid -> param.

(** In-place write to [p.data]; [p.grad] and the other parameters keep their
    contents. *)
Definition set_data `{Torch} (h : heap) (p : pid) (t : tensor) : heap :=
  fun q => if decide (q = p) then mkParam t (grad (h q)) else h q.

(** The dictionary [self.state[p]].  Keys: ['g'], ['d'], ['index'], ['step'],
    ['beta'], ['A']. *)
Record pstate `{Torch} := mkState {
  st_g : option tensor;
  st_d : option tensor;
  st_index : option bool;
  st_step : option Z;
  st_beta : option scalar;
  st_A : option matrix
}.
Arguments mkState {_} _ _ _ _ _ _.

Definition empty_state `{Torch} : pstate :=
  mkState None None None None None None.

Definition count_key {X} (o : option X) : nat :=
  match o with Some _ => 1 | None => 0 end.

(** [len(state)] *)
Definition len `{Torch} (s : pstate) : nat :=
  count_key (st_g s) + count_key (st_d s) + count_key (st_index s)
  + count_key (st_step s) + count_key (st_beta s) + count_key (st_A s).

Definition set_g `{Torch} (v : tensor) (s : pstate) : pstate :=
  mkState (Some v) (st_d s) (st_index s) (st_step s) (st_beta s) (st_A s).
Definition set_d `{Torch} (v : tensor) (s : pstate) : pstate :=
  mkState (st_g s) (Some v) (st_index s) (st_step s) (st_beta s) (st_A s).
Definition set_index `{Torch} (v : bool) (s : pstate) : pstate :=
  mkState (st_g s) (st_d s) (Some v) (st_step s) (st_beta s) (st_A s).
Definition set_step `{Torch} (v : Z) (s : pstate) : pstate :=
  mkState (st_g s) (st_d s) (st_index s) (Some v) (st_beta s) (st_A s).
Definition set_beta `{Torch} (v : scalar) (s : pstate) : pstate :=
  mkState (st_g s) (st_d s) (st_index s) (st_step s) (Some v) (st_A s).
Definition set_A `{Torch} (v : matrix) (s : pstate) : pstate :=
  mkState (st_g s) (st_d s) (st_index s) (st_step s) (st_beta s) (Some v).

(** A parameter group: the [defaults] and [group['params']] in order. *)
Record group := mkGroup {
  options : defaults;
  params : list pid
}.

(** The optimizer object: [self.param_groups] and [self.state], a
    [defaultdict(dict)]: a parameter that is not a key stands for the empty
    dictionary, and becomes a key when [self.state[p]] is evaluated. *)
Record optimizer `{Torch} := mkOptimizer {
  param_groups : list group;
  state : gmap pid pstate
}.
Arguments mkOptimizer {_} _ _.

(** The caller's closure: it runs on the memory (it fills in the gradients)
    and returns the loss. *)
Definition closure_t `{Torch} (loss : Type) : Type := heap -> loss * heap.

(** ** Collaborators

    The module [Line_Search] and the automatic differentiation of [torch] are
    used through their interfaces only.  A line search receives the closure,
    the parameter object (here: the memory and the parameter's identity) and
    the arguments [step] passes, and returns a step length; the memory after
    the call is the memory before it. *)
Class LineSearch `{Torch} (loss : Type) := {
  (** [Armijo(closure, p, g, d, lr, rho, c1, max_ls)] *)
  Armijo : option (closure_t loss) -> heap -> pid -> tensor -> tensor ->
           Q -> Q -> Q -> Q -> scalar;
  (** [Wolfe(closure, p, d_p, d, lr, c1, c2, eta, k, max_ls)] *)
  Wolfe : option (closure_t loss) -> heap -> pid -> tensor -> tensor ->
          Q -> Q -> Q -> Q -> Z -> Q -> scalar;
  (** [Strong_Wolfe(closure, p, d_p, d, lr, c1, c2, amax, max_ls)] *)
  Strong_Wolfe : option (closure_t loss) -> heap -> pid -> tensor -> tensor ->
                 Q -> Q -> Q -> Q -> Q -> scalar
}.

(** [stack([torch.autograd.grad(t[i], p, ...)[0] for i in range(len(t))])]:
    the rows are the derivatives of the components of [t] with respect to the
    parameter [p].  The result is [None] when [torch.autograd.grad] raises
    [RuntimeError], as it does when [t] was computed without a graph that
    leads back to [p]. *)
Class Autograd `{Torch} := {
  grad_rows : heap -> pid -> tensor -> option matrix
}.

(** ** The loop body of [step] on one per-parameter dictionary

    A computation on the dictionary [state = self.state[p]] either falls
    through with a value, executes [return loss], or raises; the dictionary
    as written so far is kept in all three cases. *)
Inductive res `{Torch} (X : Type) :=
  | Next (x : X) (s : pstate)
  | Returned (s : pstate)
  | Raised (e : exn) (s : pstate).
Arguments Next {_ _} _ _.
Arguments Returned {_ _} _.
Arguments Raised {_ _} _ _.

Definition body `{Torch} (X : Type) : Type := pstate -> res X.

#[global] Instance body_ret `{Torch} : MRet body := fun X x s => Next x s.

#[global] Instance body_bind `{Torch} : MBind body := fun X Y f m s =>
  match m s with
  | Next x s' => f x s'
  | Returned s' => Returned s'
  | Raised e s' => Raised e s'
  end.

(** [state[key]] as an expression: [KeyError] when the key is missing. *)
Definition item `{Torch} {X} (key : string) (field : pstate -> option X) : body X :=
  fun s => match field s with
           | Some v => Next v s
           | None => Raised (KeyError key) s
           end.

(** [state[key] = v], through the setter of the key. *)
Definition store `{Torch} (setter : pstate -> pstate) : body unit :=
  fun s => Next tt (setter s).

Definition state_len `{Torch} : body nat := fun s => Next (len s) s.

Definition return_loss `{Torch} {X} : body X := fun s => Returned s.

Definition raise `{Torch} {X} (e : exn) : body X := fun s => Raised e s.

(** The value of a call that differentiates, or its [RuntimeError]. *)
Definition differentiated `{Torch} {X} (o : option X) : body X :=
  match o with
  | Some v => mret v
  | None => raise RuntimeError
  end.

(** The memory, [self.state] and the local variable [alpha] (unbound until a
    line search has assigned it) between two iterations of the loop. *)
Record world `{Torch} := mkWorld {
  w_heap : heap;
  w_state : gmap pid pstate;
  w_alpha : option scalar
}.
Arguments mkWorld {_} _ _ _.

(** How an iteration of the loop ends: [Continue] goes on with the next
    parameter, [ReturnLoss] is the [return loss] inside the loop,
    [Exception] an uncaught exception. *)
Inductive outcome `{Torch} :=
  | Continue (w : world)
  | ReturnLoss (w : world)
  | Exception (e : exn) (w : world).

Definition world_of `{Torch} (o : outcome) : world :=
  match o with
  | Continue w | ReturnLoss w | Exception _ w => w
  end.

(** What a call of [step] leaves: the returned loss or the exception, the
    memory and the optimizer. *)
Inductive step_result `{Torch} (loss : Type) :=
  | StepReturn (l : option loss) (h : heap) (self : optimizer)
  | StepRaise (e : exn) (h : heap) (self : optimizer).
Arguments StepReturn {_ _} _ _ _.
Arguments StepRaise {_ _} _ _ _.

Section Model.
Context {T : Torch} {loss : Type} {LS : LineSearch loss} {AG : Autograd}.

(** Lines 157-184: the Init branch when the dictionary is empty, the Update
    branch otherwise.  [copy.deepcopy] of a tensor is the tensor's value. *)
Definition transition (eps : Q) (d_p : tensor) : body unit :=
  n ← state_len;
  if (n =? 0)%nat then
    store (set_g d_p);;
    g ← item "g" st_g;
    if lt (norm g) eps then return_loss
    else
      store (set_d (neg d_p));;
      store (set_index true);;
      store (set_step 0)
  else
    g_old ← item "g" st_g;
    store (set_beta (div (norm d_p) (norm g_old)));;
    store (set_g d_p);;
    g ← item "g" st_g;
    if lt (norm g) eps then return_loss
    else
      g ← item "g" st_g;
      beta ← item "beta" st_beta;
      d ← item "d" st_d;
      store (set_d (add (neg g) (mul beta d)));;
      store (set_index false).

(** [FR._get_A(p, d_p)]: the stacked matrix, or [None] when it raises. *)
Definition _get_A (h : heap) (p : pid) (d_p : tensor) : option matrix :=
  grad_rows h p d_p.

(** [FR.Exact(A, d_p, d)] *)
Definition Exact (A : matrix) (d_p d : tensor) : scalar :=
  let rdotr := dot (neg d) d_p in
  let z := matmul A d in
  div rdotr (dot d z).

(** Lines 186-211: the step length.  The result is the binding of the local
    variable [alpha] afterwards; when no branch is taken it keeps the binding
    it had. *)
Definition step_length (closure : option (closure_t loss)) (grp : defaults)
    (h : heap) (p : pid) (d_p : tensor) (alpha : option scalar)
  : body (option scalar) :=
  if bool_decide (line_search grp = "None") then
    index ← item "index" st_index;
    if index : bool then
      A' ← differentiated (_get_A h p d_p);
      store (set_A A');;
      A ← item "A" st_A;
      d ← item "d" st_d;
      mret (Some (Exact A d_p d))
    else
      A ← item "A" st_A;
      d ← item "d" st_d;
      mret (Some (Exact A d_p d))
  else if bool_decide (line_search grp = "Armijo") then
    g ← item "g" st_g;
    d ← item "d" st_d;
    mret (Some (Armijo closure h p g d (lr grp) (rho grp) (c1 grp) (max_ls grp)))
  else if bool_decide (line_search grp = "Wolfe") then
    k ← item "step" st_step;
    d ← item "d" st_d;
    let a := Wolfe closure h p d_p d (lr grp) (c1 grp) (c2 grp) (eta grp) k
               (max_ls grp) in
    k' ← item "step" st_step;
    store (set_step (k' + 1));;
    mret (Some a)
  else if bool_decide (line_search grp = "Strong_Wolfe") then
    d ← item "d" st_d;
    mret (Some (Strong_Wolfe closure h p d_p d (lr grp) (c1 grp) (c2 grp)
                  (amax grp) (max_ls grp)))
  else mret alpha.

(** Lines 155-213 on the dictionary of [p]: the state transition, the step
    length, and the two arguments of [p.data.add_(state['d'], alpha=alpha)]. *)
Definition loop_body (closure : option (closure_t loss)) (grp : defaults)
    (h : heap) (p : pid) (d_p : tensor) (alpha : option scalar)
  : body (tensor * scalar) :=
  transition (eps grp) d_p;;
  a ← step_length closure grp h p d_p alpha;
  d ← item "d" st_d;
  match a with
  | Some a => mret (d, a)
  | None => raise (UnboundLocalError "alpha")
  end.

(** One iteration of [for p in group['params']] (lines 150-213). *)
Definition step_param (closure : option (closure_t loss)) (grp : defaults)
    (p : pid) (w : world) : outcome :=
  match grad (w_heap w p) with
  | None => Continue w
  | Some d_p =>
    let s := default empty_state (w_state w !! p) in
    match loop_body closure grp (w_heap w) p d_p (w_alpha w) s with
    | Next (d, a) s' =>
      Continue (mkWorld (set_data (w_heap w) p (add_ (data (w_heap w p)) d a))
                        (<[p := s']> (w_state w)) (Some a))
    | Returned s' =>
      ReturnLoss (mkWorld (w_heap w) (<[p := s']> (w_state w)) (w_alpha w))
    | Raised e s' =>
      Exception e (mkWorld (w_heap w) (<[p := s']> (w_state w)) (w_alpha w))
    end
  end.

(** [for p in group['params']] *)
Fixpoint step_params (closure : option (closure_t loss)) (grp : defaults)
    (ps : list pid) (w : world) : outcome :=
  match ps with
  | [] => Continue w
  | p :: ps' =>
    match step_param closure grp p w with
    | Continue w' => step_params closure grp ps' w'
    | o => o
    end
  end.

(** [for group in self.param_groups] *)
Fixpoint step_groups (closure : option (closure_t loss)) (gs : list group)
    (w : world) : outcome :=
  match gs with
  | [] => Continue w
  | grp :: gs' =>
    match step_params closure (options grp) (params grp) w with
    | Continue w' => step_groups closure gs' w'
    | o => o
    end
  end.

(** Lines 143-146: [loss] and the memory after the closure has run. *)
Definition run_closure (closure : option (closure_t loss)) (h : heap)
  : option loss * heap :=
  match closure with
  | None => (None, h)
  | Some c => let (l, h') := c h in (Some l, h')
  end.

(** [FR.step(self, closure)] *)
Definition step (self : optimizer) (closure : option (closure_t loss))
    (h : heap) : step_result loss :=
  let (l, h0) := run_closure closure h in
  match step_groups closure (param_groups self) (mkWorld h0 (state self) None) with
  | Continue w | ReturnLoss w =>
    StepReturn l (w_heap w) (mkOptimizer (param_groups self) (w_state w))
  | Exception e w =>
    StepRaise e (w_heap w) (mkOptimizer (param_groups self) (w_state w))
  end.

(** The pairs of options and parameter that the two nested loops visit, in
    the order they visit them. *)
Definition iteration_order (gs : list group) : list (defaults * pid) :=
  flat_map (fun G : group => map (pair (options G)) (params G)) gs.

(** The two loops as one loop over [iteration_order]. *)
Fixpoint step_work closure (l : list (defaults * pid)) w : outcome :=
  match l with
  | [] => Continue w
  | (grp, p) :: l' =>
    match step_param closure grp p w with
    | Continue w' => step_work closure l' w'
    | o => o
    end
  end.

End Model.

(** [torch.optim.Optimizer.__init__(self, params, defaults)] for a list of
    parameters: an empty list is refused, otherwise there is one group, with
    the defaults, and no state yet. *)
Definition Optimizer_init `{Torch} (ps : list pid) (dflt : defaults)
  : exn + optimizer :=
  match ps with
  | [] => inl (ValueError "optimizer got an empty parameter list" None)
  | _ => inr (mkOptimizer [mkGroup dflt ps] ∅)
  end.

(** What a call of the constructor leaves: the optimizer and the warnings
    issued, or the exception. *)
Inductive init_result `{Torch} :=
  | Constructed (self : optimizer) (warnings : list string)
  | InitRaise (e : exn).

(** [FR.__init__(self, params, eps, line_search, c1, c2, lr, rho, eta, amax,
    max_ls)]; [cfg] holds the nine arguments after [params]. *)
Definition FR_init `{Torch} (ps : list pid) (cfg : defaults) : init_result :=
  match check_arguments cfg with
  | inl e => InitRaise e
  | inr warnings =>
    match Optimizer_init ps cfg with
    | inl e => InitRaise e
    | inr self => Constructed self warnings
    end
  end.

(** The default values of the constructor's arguments, each the decimal the
    source writes. *)
Definition default_arguments : defaults :=
  mkDefaults (1 # 1000) "Armijo" (1 # 10000) (4 # 10) 1 (1 # 2) 5 (6 # 10) 10.

(** ** Tensors of binary64 numbers

    One-dimensional tensors are lists of floating-point numbers, the stacked
    matrix is the list of its rows. *)
Module Float64.

Definition of_Z (z : Z) : float :=
  match z with
  | Z0 => 0%float
  | Zpos _ => PrimFloat.of_uint63 (Uint63.of_Z z)
  | Zneg n => PrimFloat.opp (PrimFloat.of_uint63 (Uint63.of_Z (Zpos n)))
  end.

(** The binary64 number nearest to a quotient of two small integers. *)
Definition of_Q (q : Q) : float :=
  PrimFloat.div (of_Z (Qnum q)) (of_Z (Zpos (Qden q))).

Definition fdot (t u : list float) : float :=
  fold_left PrimFloat.add (zip_with PrimFloat.mul t u) 0%float.

Definition torch : Torch := {|
  scalar := float;
  tensor := list float;
  matrix := list (list float);
  norm t := PrimFloat.sqrt (fdot t t);
  neg t := map PrimFloat.opp t;
  add t u := zip_with PrimFloat.add t u;
  mul s t := map (PrimFloat.mul s) t;
  div s r := PrimFloat.div s r;
  dot := fdot;
  matmul A t := map (fun row => fdot row t) A;
  lt s x := PrimFloat.ltb s (of_Q x);
  add_ t u s := zip_with (fun x y => PrimFloat.add x (PrimFloat.mul s y)) t u
|}.

#[local] Existing Instance torch.

(** Line searches that accept their first trial step: [lr], [lr / (k + 1)]
    and [amax]. *)
Definition first_trial : LineSearch float := {|
  Armijo _ _ _ _ _ lr _ _ _ := of_Q lr;
  Wolfe _ _ _ _ _ lr _ _ _ k _ := PrimFloat.div (of_Q lr) (of_Z (k + 1));
  Strong_Wolfe _ _ _ _ _ _ _ _ amax _ := of_Q amax
|}.

(** Differentiation of the gradient of [f(x) = x^T A x / 2], whatever [x] is:
    the rows of [A]. *)
Definition hessian (A : list (list float)) : Autograd := {|
  grad_rows _ _ _ := Some A
|}.

(** Differentiation with respect to a one-element parameter [x] of a tensor
    [c * x] obtained from it by scaling: the derivative is [c], the quotient
    of the two values. *)
Definition scaling : Autograd := {|
  grad_rows h p t :=
    match t, data (h p) with
    | [ti], [xi] => Some [[PrimFloat.div ti xi]]
    | _, _ => None
    end
|}.

(** A memory holding the given tensors as parameters 0, 1, ..., with no
    gradient yet. *)
Definition memory (xs : list (list float)) : heap :=
  fun q => mkParam (nth q xs []) None.

(** The closure of the objective [f(x) = x^T A x / 2] of parameter [p]: it
    returns [f(x)] and leaves [A x] as the gradient of [p]. *)
Definition quadratic (A : list (list float)) (p : pid) : closure_t float :=
  fun h =>
    let x := data (h p) in
    let g := map (fun row => fdot row x) A in
    (PrimFloat.mul 0.5%float (fdot x g),
     fun q => if decide (q = p) then mkParam x (Some g) else h q).

(** A closure that returns [l] and leaves the gradients [gs] (a parameter
    past the end of the list gets none). *)
Definition gradients (l : float) (gs : list (option (list float)))
  : closure_t float :=
  fun h => (l, fun q => mkParam (data (h q)) (nth q gs None)).

(** The arguments of the constructor with [line_search] and [eps] chosen. *)
Definition arguments (ls : string) (e : Q) : defaults :=
  mkDefaults e ls (1 # 10000) (4 # 10) 1 (1 # 2) 5 (6 # 10) 10.

Definition fresh (ls : string) (e : Q) (ps : list pid) : optimizer :=
  mkOptimizer [mkGroup (arguments ls e) ps] ∅.

End Float64.

(** What is read off a [step_result]. *)
Definition result_heap `{Torch} {loss} (r : step_result loss) : heap :=
  match r with StepReturn _ h _ | StepRaise _ h _ => h end.

Definition result_optimizer `{Torch} {loss} (r : step_result loss) : optimizer :=
  match r with StepReturn _ _ o | StepRaise _ _ o => o end.

Definition state_of `{Torch} {X} (r : res X) : pstate :=
  match r with Next _ s | Returned s | Raised _ s => s end.

(** [r] with [f] applied to the dictionary it holds. *)
Definition res_map `{Torch} {X} (f : pstate -> pstate) (r : res X) : res X :=
  match r with
  | Next x s => Next x (f s)
  | Returned s => Returned (f s)
  | Raised e s => Raised e (f s)
  end.

(** ** An invariant of [self.state]

    Every dictionary in [self.state] has the key ['g']: it is the first key
    written, and no key is ever deleted. *)
Definition state_ok `{Torch} (st : gmap pid pstate) : Prop :=
  forall p s, st !! p = Some s -> is_Some (st_g s).

(** The keys of a dictionary that an iteration has left: ['g'] is there,
    and with ['d'] come ['index'] and ['step']. *)
Definition shaped `{Torch} (s : pstate) : Prop :=
  is_Some (st_g s)
  /\ (is_Some (st_d s) -> is_Some (st_index s) /\ is_Some (st_step s)).

Definition state_shaped `{Torch} (st : gmap pid pstate) : Prop :=
  forall p s, st !! p = Some s -> shaped s.

(** The exceptions of [step] under the policy [ls]: the missing key ['d']
    and, under the exact policy, what [_get_A] raises and the missing key
    ['A']. *)
Definition step_exception (ls : string) (e : exn) : Prop :=
  e = KeyError "d" \/ (ls = "None" /\ (e = KeyError "A" \/ e = RuntimeError)).

(** ** Inputs of the runs on binary64 tensors *)

Module Inputs.
Import Float64.

#[local] Existing Instance torch.
#[local] Existing Instance first_trial.

Local Open Scope float_scope.

(** ** The exact policy on [f(x) = x^2], a one-element parameter at 3 *)

Definition square : closure_t float := quadratic [[2]] 0%nat.

Definition square_start : heap := memory [[3]].

(** The memory when the closure has run: the gradient is [6]. *)
Definition square_world : world :=
  mkWorld (snd (square square_start)) ∅ None.

(** ** The exact policy on [f(x, y) = (x^2 + 2 y^2) / 2] from (3, 2) *)

Definition ellipse_A : list (list float) := [[1; 0]; [0; 2]].

Definition ellipse : closure_t float := quadratic ellipse_A 0%nat.

Definition ellipse_start : heap := memory [[3; 2]].

(** ** Three parameters, the second with a gradient of norm [2^-12] *)

Definition three_options : defaults := arguments "Armijo" (1 # 1000).

Definition three : optimizer := mkOptimizer [mkGroup three_options [0; 1; 2]%nat] ∅.

Definition three_start : heap := memory [[1; 1]; [2; 2]; [5; 5]].

Definition three_closure : closure_t float :=
  gradients 7 [Some [3; 4]; Some [0.000244140625; 0]; Some [1; 1]].

(** The world when the loop has gone past parameter 0. *)
Definition three_after_first : world :=
  world_of (step_work (AG := hessian []) (Some three_closure)
              [(three_options, 0%nat)]
              (mkWorld (snd (three_closure three_start)) ∅ None)).

(** ** A second iteration: stored gradient (3, 4), direction (-3, -4), new
    gradient (6, 8) *)

Definition second_world : world :=
  mkWorld (fun _ => mkParam [1; 1] (Some [6; 8]))
          {[ 0%nat := mkState (Some [3; 4]) (Some [-3; -4]) (Some true)
                              (Some 0%Z) None None ]}
          None.

(** ** A parameter that starts where its gradient is below [eps] *)

Definition flat_start : heap := memory [[2; 2]].

Definition flat_closure : closure_t float := gradients 1 [Some [0.000244140625; 0]].

Definition steep_closure : closure_t float := gradients 9 [Some [3; 4]].

Definition lone (ls : string) : optimizer := fresh ls (1 # 1000) [0%nat].

(** A closure that leaves parameter 1 without gradient. *)
Definition gap_closure : closure_t float :=
  gradients 7 [Some [3; 4]; None; Some [1; 1]].

(** The second step on the ellipse as the Fletcher-Reeves formula has it,
    from the point [x1] with gradient [g1] that a first step along [-g0] has
    reached: the coefficient is the quotient of the squared norms. *)
Definition squared_coefficient_step (x1 g0 g1 : list float) : list float :=
  let beta := PrimFloat.div (fdot g1 g1) (fdot g0 g0) in
  let d := add (neg g1) (mul beta (neg g0)) in
  let alpha := div (dot (neg d) g1) (dot d (matmul ellipse_A d)) in
  add_ x1 d alpha.

End Inputs.

(** * Properties *)

(** ** Python numbers *)

Lemma Qltb_lt (x y : Q) : Qltb x y = true <-> (x < y)%Q.
Proof.
  unfold Qltb. rewrite negb_true_iff, <- not_true_iff_false, Qle_bool_iff.
  split; [apply Qnot_le_lt | apply Qlt_not_le].
Qed.

Lemma Qltb_ge (x y : Q) : Qltb x y = false <-> (y <= x)%Q.
Proof. unfold Qltb. rewrite negb_false_iff. apply Qle_bool_iff. Qed.

Section Properties.
Context {T : Torch} {loss : Type} {LS : LineSearch loss} {AG : Autograd}.

Implicit Types (s : pstate) (w : world) (p q : pid) (g d_p : tensor).
Implicit Types (closure : option (closure_t loss)) (grp : defaults).

(** Unfolds the sequencing of the loop body down to matches on the
    dictionary's fields. *)
Ltac run_body :=
  unfold loop_body, transition, step_length, differentiated, mbind, body_bind,
    mret, body_ret, state_len, item, store, return_loss, raise; cbn.

(** ** The state transition (lines 157-184) *)

Lemma transition_init (e : Q) g :
  transition e g empty_state =
  if lt (norm g) e then Returned (set_g g empty_state)
  else Next tt (mkState (Some g) (Some (neg g)) (Some true) (Some 0%Z) None None).
Proof. run_body. destruct (lt (norm g) e); reflexivity. Qed.

Lemma transition_update (e : Q) g2 s g1 :
  st_g s = Some g1 ->
  let b := div (norm g2) (norm g1) in
  let s1 := set_g g2 (set_beta b s) in
  transition e g2 s =
  if lt (norm g2) e then Returned s1
  else match st_d s with
       | Some d1 => Next tt (set_index false (set_d (add (neg g2) (mul b d1)) s1))
       | None => Raised (KeyError "d") s1
       end.
Proof.
  intros Hg. destruct s as [sg sd si sk sb sa]. cbn in Hg. subst sg.
  run_body. destruct (lt (norm g2) e); [reflexivity |].
  destruct sd; reflexivity.
Qed.

(** ** The step length (lines 186-211) *)

(** No step-length policy writes the keys ['g'], ['d'], ['index'] and
    ['beta']. *)
Lemma step_length_frame closure grp (h : heap) p d_p (alpha : option scalar) s :
  let s' := state_of (step_length closure grp h p d_p alpha s) in
  st_g s' = st_g s /\ st_d s' = st_d s /\ st_index s' = st_index s
  /\ st_beta s' = st_beta s.
Proof.
  run_body. repeat case_bool_decide;
    destruct s as [sg sd [[|]|] sk sb sa]; cbn;
    destruct (_get_A h p d_p), sg, sd, sk, sa; cbn; auto.
Qed.

(** The dictionary a run of the loop body leaves, from the one the state
    transition leaves. *)
Lemma loop_body_state closure grp (h : heap) p d_p (alpha : option scalar) s :
  state_of (loop_body closure grp h p d_p alpha s) =
  match transition (eps grp) d_p s with
  | Next _ s1 => state_of (step_length closure grp h p d_p alpha s1)
  | Returned s1 | Raised _ s1 => s1
  end.
Proof.
  unfold loop_body, mbind, body_bind.
  destruct (transition (eps grp) d_p s) as [[] s1|s1|e s1]; try reflexivity.
  destruct (step_length closure grp h p d_p alpha s1) as [a s2|s2|e s2];
    try reflexivity.
  unfold item. cbn. destruct (st_d s2); [|reflexivity].
  destruct a; reflexivity.
Qed.

(** ** One iteration of the loop (lines 150-213) *)

Lemma step_param_state closure grp p w d_p :
  grad (w_heap w p) = Some d_p ->
  w_state (world_of (step_param closure grp p w)) =
  <[p := state_of (loop_body closure grp (w_heap w) p d_p (w_alpha w)
                     (default empty_state (w_state w !! p)))]> (w_state w).
Proof.
  intros Hg. unfold step_param. rewrite Hg.
  destruct (loop_body _ _ _ _ _ _ _) as [[d a] s'|s'|e s']; reflexivity.
Qed.

(** C1.  A parameter that has a dictionary with stored gradient [g1] and
    direction [d1], and whose new gradient [g2] has a norm that is not below
    [eps]: however the iteration ends, the dictionary then holds the
    direction [-g2 + beta * d1] for [beta = norm g2 / norm g1], the quotient
    of the two norms (not of their squares), taken with the gradient stored
    before the call, and it holds [g2] as the stored gradient. *)
Theorem fletcher_reeves_direction closure grp p w s g1 d1 g2 :
  w_state w !! p = Some s ->
  st_g s = Some g1 ->
  st_d s = Some d1 ->
  grad (w_heap w p) = Some g2 ->
  lt (norm g2) (eps grp) = false ->
  exists s',
    w_state (world_of (step_param closure grp p w)) !! p = Some s'
    /\ st_d s' = Some (add (neg g2) (mul (div (norm g2) (norm g1)) d1))
    /\ st_beta s' = Some (div (norm g2) (norm g1))
    /\ st_g s' = Some g2.
Proof.
  intros Hs Hg Hd Hgrad Hlt.
  eexists. split.
  - rewrite (step_param_state _ _ _ _ _ Hgrad). apply lookup_insert_eq.
  - rewrite Hs. cbn. rewrite loop_body_state.
    rewrite (transition_update _ _ _ _ Hg). cbv zeta. rewrite Hlt, Hd.
    destruct (step_length_frame closure grp (w_heap w) p g2 (w_alpha w)
      (set_index false (set_d (add (neg g2) (mul (div (norm g2) (norm g1)) d1))
         (set_g g2 (set_beta (div (norm g2) (norm g1)) s)))))
      as (Eg & Ed & _ & Eb).
    rewrite Eg, Ed, Eb. auto.
Qed.

(** When the state transition does not fall through, the loop body ends the
    way the transition does. *)
Lemma loop_body_returned closure grp (h : heap) p d_p (alpha : option scalar) s s1 :
  transition (eps grp) d_p s = Returned s1 ->
  loop_body closure grp h p d_p alpha s = Returned s1.
Proof. intros Ht. unfold loop_body, mbind, body_bind. rewrite Ht. reflexivity. Qed.

Lemma loop_body_raised closure grp (h : heap) p d_p (alpha : option scalar) s e s1 :
  transition (eps grp) d_p s = Raised e s1 ->
  loop_body closure grp h p d_p alpha s = Raised e s1.
Proof. intros Ht. unfold loop_body, mbind, body_bind. rewrite Ht. reflexivity. Qed.

(** The step length when the policy is not Wolfe's: the key ['step'] is not
    written. *)
Lemma step_length_keeps_step closure grp (h : heap) p d_p (alpha : option scalar) s :
  line_search grp <> "Wolfe" ->
  st_step (state_of (step_length closure grp h p d_p alpha s)) = st_step s.
Proof.
  intros Hls. run_body. repeat case_bool_decide; try contradiction;
    destruct s as [sg sd [[|]|] sk sb sa]; cbn;
    destruct (_get_A h p d_p), sg, sd, sa; cbn; auto.
Qed.

(** The step length under Wolfe's policy. *)
Lemma step_length_wolfe closure grp (h : heap) p d_p (alpha : option scalar) s k d :
  line_search grp = "Wolfe" ->
  st_step s = Some k ->
  st_d s = Some d ->
  step_length closure grp h p d_p alpha s =
  Next (Some (Wolfe closure h p d_p d (lr grp) (c1 grp) (c2 grp) (eta grp) k
                (max_ls grp)))
       (set_step (k + 1) s).
Proof.
  intros Hls Hk Hd. destruct s as [sg sd si sk sb sa]. cbn in Hk, Hd. subst.
  run_body. rewrite Hls. reflexivity.
Qed.

(** C5.  A parameter without a dictionary whose gradient [g] has a norm that
    is not below [eps]: the state transition stores [g], the direction [-g]
    (a value of its own: the memory is not referred to), the first-iteration
    flag [True] and the iteration count 0.  When the iteration is over the
    dictionary still holds that gradient, direction and flag; the count is
    still 0 unless the policy is Wolfe's, which has counted its one call. *)
Theorem first_iteration_direction closure grp p w g :
  w_state w !! p = None ->
  grad (w_heap w p) = Some g ->
  lt (norm g) (eps grp) = false ->
  transition (eps grp) g (default empty_state (w_state w !! p)) =
    Next tt (mkState (Some g) (Some (neg g)) (Some true) (Some 0%Z) None None)
  /\ exists s',
      w_state (world_of (step_param closure grp p w)) !! p = Some s'
      /\ st_g s' = Some g
      /\ st_d s' = Some (neg g)
      /\ st_index s' = Some true
      /\ st_step s' =
         Some (if bool_decide (line_search grp = "Wolfe") then 1%Z else 0%Z).
Proof.
  intros Hs Hgrad Hlt. rewrite Hs. cbn [default].
  assert (Ht : transition (eps grp) g empty_state =
    Next tt (mkState (Some g) (Some (neg g)) (Some true) (Some 0%Z) None None))
    by (rewrite transition_init, Hlt; reflexivity).
  split; [exact Ht |].
  eexists. split.
  - rewrite (step_param_state _ _ _ _ _ Hgrad). apply lookup_insert_eq.
  - rewrite Hs. cbn [default]. rewrite loop_body_state, Ht.
    match goal with |- context [step_length ?c ?g0 ?h ?p0 ?d ?a ?s0] =>
      destruct (step_length_frame c g0 h p0 d a s0) as (Eg & Ed & Ei & _);
      pose proof (step_length_keeps_step c g0 h p0 d a s0) as Ek;
      pose proof (fun k dd => step_length_wolfe c g0 h p0 d a s0 k dd) as Ew
    end.
    rewrite Eg, Ed, Ei. repeat split.
    case_bool_decide as Hls.
    + rewrite (Ew 0%Z (neg g) Hls eq_refl eq_refl). reflexivity.
    + rewrite (Ek Hls). reflexivity.
Qed.

(** C10.  The [return loss] of the Update branch: the parameter has a
    dictionary with stored gradient [g1] and its new gradient [g2] has a norm
    below [eps].  The iteration returns with ['beta'] and ['g'] already
    rewritten, while the direction, the first-iteration flag, the iteration
    count and the cached matrix are the ones from before the call; the memory
    is as it was. *)
Theorem early_return_partial_update closure grp p w s g1 g2 :
  w_state w !! p = Some s ->
  st_g s = Some g1 ->
  grad (w_heap w p) = Some g2 ->
  lt (norm g2) (eps grp) = true ->
  let s' := set_g g2 (set_beta (div (norm g2) (norm g1)) s) in
  step_param closure grp p w =
    ReturnLoss (mkWorld (w_heap w) (<[p := s']> (w_state w)) (w_alpha w))
  /\ st_beta s' = Some (div (norm g2) (norm g1))
  /\ st_g s' = Some g2
  /\ st_d s' = st_d s
  /\ st_index s' = st_index s
  /\ st_step s' = st_step s
  /\ st_A s' = st_A s.
Proof.
  intros Hs Hg Hgrad Hlt s'. split; [| repeat split].
  unfold step_param. rewrite Hgrad, Hs. cbn [default].
  rewrite (loop_body_returned _ _ _ _ _ _ _ s'); [reflexivity |].
  rewrite (transition_update _ _ _ _ Hg). cbv zeta. rewrite Hlt. reflexivity.
Qed.

(** C9.  A parameter whose first gradient [g1] has a norm below [eps] gets a
    dictionary with the key ['g'] alone, and the call returns.  From then on
    (the dictionary has ['g'] and no ['d'], whatever else a later early
    return has added), an iteration in which the norm of its gradient is not
    below [eps] raises [KeyError('d')] when it forms the new direction:
    ['beta'] and ['g'] are rewritten, the parameter is not updated. *)
Theorem missing_direction_key closure grp p w g1 :
  w_state w !! p = None ->
  grad (w_heap w p) = Some g1 ->
  lt (norm g1) (eps grp) = true ->
  step_param closure grp p w =
    ReturnLoss (mkWorld (w_heap w)
                  (<[p := mkState (Some g1) None None None None None]> (w_state w))
                  (w_alpha w))
  /\ forall closure' grp' w' s g g2,
      w_state w' !! p = Some s ->
      st_g s = Some g ->
      st_d s = None ->
      grad (w_heap w' p) = Some g2 ->
      lt (norm g2) (eps grp') = false ->
      step_param closure' grp' p w' =
        Exception (KeyError "d")
          (mkWorld (w_heap w')
             (<[p := set_g g2 (set_beta (div (norm g2) (norm g)) s)]> (w_state w'))
             (w_alpha w')).
Proof.
  intros Hs Hgrad Hlt. split.
  - unfold step_param. rewrite Hgrad, Hs. cbn [default].
    rewrite (loop_body_returned _ _ _ _ _ _ _ (set_g g1 empty_state));
      [reflexivity |].
    rewrite transition_init, Hlt. reflexivity.
  - intros closure' grp' w' s g g2 Hs' Hg Hd Hgrad' Hlt'.
    unfold step_param. rewrite Hgrad', Hs'. cbn [default].
    rewrite (loop_body_raised _ _ _ _ _ _ _ (KeyError "d")
               (set_g g2 (set_beta (div (norm g2) (norm g)) s)));
      [reflexivity |].
    rewrite (transition_update _ _ _ _ Hg). cbv zeta. rewrite Hlt', Hd.
    reflexivity.
Qed.

(** The step length when the policy is not Wolfe's: the key ['step'] is not
    read. *)
Lemma step_length_ignores_step closure grp (h : heap) p d_p (alpha : option scalar) s k :
  line_search grp <> "Wolfe" ->
  step_length closure grp h p d_p alpha (set_step k s) =
  res_map (set_step k) (step_length closure grp h p d_p alpha s).
Proof.
  intros Hls. run_body. repeat case_bool_decide; try contradiction;
    destruct s as [sg sd [[|]|] sk sb sa]; cbn;
    destruct (_get_A h p d_p), sg, sd, sa; cbn; auto.
Qed.

(** An iteration whose state transition falls through and whose step length
    is found: the update [p.data.add_(state['d'], alpha=alpha)]. *)
Lemma step_param_update closure grp p w d_p s1 s2 a d :
  grad (w_heap w p) = Some d_p ->
  transition (eps grp) d_p (default empty_state (w_state w !! p)) = Next tt s1 ->
  step_length closure grp (w_heap w) p d_p (w_alpha w) s1 = Next (Some a) s2 ->
  st_d s2 = Some d ->
  step_param closure grp p w =
    Continue (mkWorld (set_data (w_heap w) p (add_ (data (w_heap w p)) d a))
                (<[p := s2]> (w_state w)) (Some a)).
Proof.
  intros Hgrad Ht Hl Hd. unfold step_param. rewrite Hgrad.
  unfold loop_body, mbind, body_bind. rewrite Ht, Hl.
  unfold item. rewrite Hd. reflexivity.
Qed.

(** C7.  Under Wolfe's policy the step length is the result of [Wolfe] called
    with the iteration count [k] of the dictionary, and the count read from
    the dictionary afterwards is [k + 1]; that step length is the one the
    update of the parameter uses, and the dictionary of the parameter in
    [self.state] then has the count [k + 1].  Under every other policy the
    step length and the way the computation ends do not depend on the count,
    and the count is left as it is. *)
Theorem wolfe_iteration_count closure grp p w (h : heap) d_p (alpha : option scalar) s :
  (line_search grp = "Wolfe" ->
   (forall k d,
      st_step s = Some k ->
      st_d s = Some d ->
      step_length closure grp h p d_p alpha s =
        Next (Some (Wolfe closure h p d_p d (lr grp) (c1 grp) (c2 grp) (eta grp)
                      k (max_ls grp)))
             (set_step (k + 1) s)
      /\ st_step (state_of (step_length closure grp h p d_p alpha s))
         = Some (k + 1)%Z)
   /\ (forall k d,
         grad (w_heap w p) = Some d_p ->
         transition (eps grp) d_p (default empty_state (w_state w !! p)) =
           Next tt s ->
         st_step s = Some k ->
         st_d s = Some d ->
         let a := Wolfe closure (w_heap w) p d_p d (lr grp) (c1 grp) (c2 grp)
                    (eta grp) k (max_ls grp) in
         step_param closure grp p w =
           Continue (mkWorld (set_data (w_heap w) p (add_ (data (w_heap w p)) d a))
                       (<[p := set_step (k + 1) s]> (w_state w)) (Some a))
         /\ exists s',
             w_state (world_of (step_param closure grp p w)) !! p = Some s'
             /\ st_step s' = Some (k + 1)%Z
             /\ st_d s' = Some d
             /\ w_alpha (world_of (step_param closure grp p w)) = Some a))
  /\ (line_search grp <> "Wolfe" ->
      st_step (state_of (step_length closure grp h p d_p alpha s)) = st_step s
      /\ forall k,
          step_length closure grp h p d_p alpha (set_step k s) =
          res_map (set_step k) (step_length closure grp h p d_p alpha s)).
Proof.
  split.
  - intros Hls. split.
    + intros k d Hk Hd.
      rewrite (step_length_wolfe closure grp h p d_p alpha s k d Hls Hk Hd).
      split; reflexivity.
    + intros k d Hgrad Ht Hk Hd a.
      assert (Hp : step_param closure grp p w =
        Continue (mkWorld (set_data (w_heap w) p (add_ (data (w_heap w p)) d a))
                    (<[p := set_step (k + 1) s]> (w_state w)) (Some a))).
      { apply (step_param_update _ _ _ _ _ _ _ _ _ Hgrad Ht).
        - apply step_length_wolfe; assumption.
        - destruct s; exact Hd. }
      split; [exact Hp |]. rewrite Hp. cbn.
      exists (set_step (k + 1) s). rewrite lookup_insert_eq.
      repeat split. destruct s; exact Hd.
  - intros Hls. split.
    + apply step_length_keeps_step, Hls.
    + intros k. apply step_length_ignores_step, Hls.
Qed.

(** The step length of the exact policy on the first iteration: the matrix is
    computed from the gradient [d_p] and stored. *)
Lemma step_length_exact_first closure grp (h : heap) p d_p (alpha : option scalar) s d A :
  line_search grp = "None" ->
  st_index s = Some true ->
  st_d s = Some d ->
  _get_A h p d_p = Some A ->
  step_length closure grp h p d_p alpha s =
  Next (Some (Exact A d_p d)) (set_A A s).
Proof.
  intros Hls Hi Hd HA. destruct s as [sg sd si sk sb sa]. cbn in Hi, Hd. subst.
  run_body. rewrite Hls, HA. reflexivity.
Qed.

(** The step length of the exact policy on a later iteration: the stored
    matrix is used, nothing is stored. *)
Lemma step_length_exact_later closure grp (h : heap) p d_p (alpha : option scalar) s d A :
  line_search grp = "None" ->
  st_index s = Some false ->
  st_d s = Some d ->
  st_A s = Some A ->
  step_length closure grp h p d_p alpha s = Next (Some (Exact A d_p d)) s.
Proof.
  intros Hls Hi Hd HA. destruct s as [sg sd si sk sb sa]. cbn in Hi, Hd, HA. subst.
  run_body. rewrite Hls. reflexivity.
Qed.

(** C3, as the code has it.  Under the exact policy (['None']):
    - on the iteration that creates the dictionary, the matrix is the one
      [_get_A(p, d_p)] returns, computed from the gradient [d_p = p.grad] of
      the parameter (the direction is [-d_p] then), and it is stored;
    - on a later iteration the stored matrix is used and kept, and [_get_A]
      is not called;
    - on both, the parameter moves along the direction [d] by
      [alpha = Exact(A, d_p, d)], which is
      [(-d . d_p) / (d . (A d))]. *)
Theorem exact_step_uses_cached_curvature closure grp p w :
  line_search grp = "None" ->
  (forall g A,
     w_state w !! p = None ->
     grad (w_heap w p) = Some g ->
     lt (norm g) (eps grp) = false ->
     _get_A (w_heap w) p g = Some A ->
     let d := neg g in
     let alpha := Exact A g d in
     step_param closure grp p w =
       Continue (mkWorld (set_data (w_heap w) p (add_ (data (w_heap w p)) d alpha))
                   (<[p := mkState (Some g) (Some d) (Some true) (Some 0%Z) None
                                   (Some A)]> (w_state w))
                   (Some alpha)))
  /\ (forall s g1 d1 A g2,
        w_state w !! p = Some s ->
        st_g s = Some g1 ->
        st_d s = Some d1 ->
        st_A s = Some A ->
        grad (w_heap w p) = Some g2 ->
        lt (norm g2) (eps grp) = false ->
        let beta := div (norm g2) (norm g1) in
        let d := add (neg g2) (mul beta d1) in
        let alpha := Exact A g2 d in
        let s' := set_index false (set_d d (set_g g2 (set_beta beta s))) in
        step_param closure grp p w =
          Continue (mkWorld (set_data (w_heap w) p (add_ (data (w_heap w p)) d alpha))
                      (<[p := s']> (w_state w)) (Some alpha))
        /\ st_A s' = Some A)
  /\ (forall A g d, Exact A g d = div (dot (neg d) g) (dot d (matmul A d))).
Proof.
  intros Hls. split; [| split].
  - intros g A Hs Hgrad Hlt HA d alpha.
    eapply (step_param_update _ _ _ _ _ _ _ _ _ Hgrad).
    + rewrite Hs. cbn [default]. rewrite transition_init, Hlt. reflexivity.
    + apply step_length_exact_first;
        [exact Hls | reflexivity | reflexivity | exact HA].
    + reflexivity.
  - intros s g1 d1 A g2 Hs Hg Hd HA Hgrad Hlt beta d alpha s'. split.
    + eapply (step_param_update _ _ _ _ _ _ _ _ _ Hgrad).
      * rewrite Hs. cbn [default]. rewrite (transition_update _ _ _ _ Hg).
        cbv zeta. rewrite Hlt, Hd. reflexivity.
      * apply step_length_exact_later;
          [exact Hls | reflexivity | reflexivity | exact HA].
      * reflexivity.
    + exact HA.
  - reflexivity.
Qed.

(** ** The loops (lines 148-213) *)

Lemma step_work_app closure l1 l2 w :
  step_work closure (l1 ++ l2) w =
  match step_work closure l1 w with
  | Continue w' => step_work closure l2 w'
  | o => o
  end.
Proof.
  revert w. induction l1 as [| [grp p] l1 IH]; intros w; cbn; [reflexivity |].
  destruct (step_param closure grp p w); auto.
Qed.

Lemma step_params_work closure grp ps w :
  step_params closure grp ps w = step_work closure (map (pair grp) ps) w.
Proof.
  revert w. induction ps as [| p ps IH]; intros w; cbn; [reflexivity |].
  destruct (step_param closure grp p w); auto.
Qed.

Lemma step_groups_work closure gs w :
  step_groups closure gs w = step_work closure (iteration_order gs) w.
Proof.
  revert w. induction gs as [| G gs IH]; intros w; cbn; [reflexivity |].
  rewrite step_work_app, <- step_params_work.
  destruct (step_params closure (options G) (params G) w); auto.
Qed.

(** An iteration writes neither a gradient nor anything of another
    parameter, and nothing at all of a parameter without gradient. *)
Lemma step_param_grad closure grp p w q :
  grad (w_heap (world_of (step_param closure grp p w)) q) = grad (w_heap w q).
Proof.
  unfold step_param. destruct (grad (w_heap w p)) as [d_p |]; [| reflexivity].
  destruct (loop_body _ _ _ _ _ _ _) as [[d a] s' | s' | e s']; cbn;
    try reflexivity.
  unfold set_data. destruct (decide (q = p)); reflexivity.
Qed.

Lemma step_param_frame closure grp p w q :
  q <> p \/ grad (w_heap w q) = None ->
  data (w_heap (world_of (step_param closure grp p w)) q) = data (w_heap w q)
  /\ w_state (world_of (step_param closure grp p w)) !! q = w_state w !! q.
Proof.
  intros Hq. unfold step_param.
  destruct (grad (w_heap w p)) as [d_p |] eqn:Hgrad; [| auto].
  assert (Hne : q <> p) by (destruct Hq as [? | Hn]; [assumption | congruence]).
  destruct (loop_body _ _ _ _ _ _ _) as [[d a] s' | s' | e s']; cbn;
    rewrite lookup_insert_ne by congruence; split; try reflexivity.
  unfold set_data. destruct (decide (q = p)); [contradiction | reflexivity].
Qed.

Lemma step_work_grad closure l w q :
  grad (w_heap (world_of (step_work closure l w)) q) = grad (w_heap w q).
Proof.
  revert w. induction l as [| [grp p] l IH]; intros w; cbn; [reflexivity |].
  pose proof (step_param_grad closure grp p w q) as Hp.
  destruct (step_param closure grp p w) as [w' | w' | e w']; cbn in *;
    [rewrite IH |..]; exact Hp.
Qed.

Lemma step_work_frame closure l w q :
  q ∉ l.*2 \/ grad (w_heap w q) = None ->
  data (w_heap (world_of (step_work closure l w)) q) = data (w_heap w q)
  /\ w_state (world_of (step_work closure l w)) !! q = w_state w !! q.
Proof.
  revert w. induction l as [| [grp p] l IH]; intros w Hq; cbn; [auto |].
  assert (Hp : q <> p \/ grad (w_heap w q) = None).
  { destruct Hq as [Hq | Hq]; [left | right; exact Hq].
    intros ->. apply Hq. cbn. left. }
  pose proof (step_param_frame closure grp p w q Hp) as [Hd Hs].
  pose proof (step_param_grad closure grp p w q) as Hg.
  destruct (step_param closure grp p w) as [w' | w' | e w']; cbn in *; auto.
  destruct (IH w') as [Hd' Hs'].
  - destruct Hq as [Hq | Hq]; [left | right; congruence].
    intros Hin. apply Hq. cbn. right. exact Hin.
  - split; congruence.
Qed.

(** The check of the gradient norm against [eps] is made on both branches
    before anything else can end the state transition normally. *)
Lemma transition_small (e : Q) g s :
  lt (norm g) e = true ->
  (exists s1, transition e g s = Returned s1)
  \/ (exists x s1, transition e g s = Raised x s1).
Proof.
  intros Hlt. destruct s as [[?|] [?|] [?|] [?|] [?|] [?|]]; run_body;
    rewrite ?Hlt; eauto.
Qed.

(** The iteration of a parameter whose gradient norm is below [eps] does not
    fall through, and it leaves the memory as it is. *)
Lemma step_param_small closure grp p w g :
  grad (w_heap w p) = Some g ->
  lt (norm g) (eps grp) = true ->
  (forall w', step_param closure grp p w <> Continue w')
  /\ w_heap (world_of (step_param closure grp p w)) = w_heap w.
Proof.
  intros Hgrad Hlt. unfold step_param. rewrite Hgrad.
  destruct (transition_small (eps grp) g (default empty_state (w_state w !! p)) Hlt)
    as [[s1 Ht] | (x & s1 & Ht)].
  - rewrite (loop_body_returned _ _ _ _ _ _ _ _ Ht). split; [discriminate | reflexivity].
  - rewrite (loop_body_raised _ _ _ _ _ _ _ _ _ Ht). split; [discriminate | reflexivity].
Qed.

(** A parameter whose gradient norm is below the [eps] of every group it is
    in: the loop does not go past it, and its tensor stays as it is however
    the loop ends. *)
Lemma step_work_small closure l w p g :
  grad (w_heap w p) = Some g ->
  (forall grp, (grp, p) ∈ l -> lt (norm g) (eps grp) = true) ->
  (forall w1, step_work closure l w = Continue w1 -> p ∉ l.*2)
  /\ data (w_heap (world_of (step_work closure l w)) p) = data (w_heap w p).
Proof.
  revert w. induction l as [| [grp0 p0] l IH]; intros w Hgrad Hlt; cbn.
  - split; [intros _ _; apply not_elem_of_nil | reflexivity].
  - pose proof (step_param_grad closure grp0 p0 w p) as Hg.
    destruct (decide (p0 = p)) as [-> | Hne].
    + destruct (step_param_small closure grp0 p w g Hgrad (Hlt grp0 ltac:(left)))
        as [Hno Hheap].
      destruct (step_param closure grp0 p w) as [w' | w' | e w'];
        [destruct (Hno w' eq_refl) | |]; cbn in *;
        (split; [discriminate | rewrite Hheap; reflexivity]).
    + destruct (step_param_frame closure grp0 p0 w p (or_introl (not_eq_sym Hne)))
        as [Hd _].
      destruct (step_param closure grp0 p0 w) as [w' | w' | e w']; cbn in *;
        try (split; [discriminate | exact Hd]).
      destruct (IH w') as [Hnot Hdata].
      * congruence.
      * intros grp Hin. apply Hlt. right. exact Hin.
      * split; [| congruence].
        intros w1 Hw. apply not_elem_of_cons. split; [congruence | eauto].
Qed.

(** ** The invariant of [self.state] *)

Lemma state_ok_empty : state_ok ∅.
Proof. intros p s Hs. rewrite lookup_empty in Hs. discriminate. Qed.

Lemma loop_body_keeps_g closure grp (h : heap) p d_p (alpha : option scalar) s :
  s = empty_state \/ is_Some (st_g s) ->
  is_Some (st_g (state_of (loop_body closure grp h p d_p alpha s))).
Proof.
  intros Hs. rewrite loop_body_state.
  assert (Ht : is_Some (st_g (state_of (transition (eps grp) d_p s)))
               /\ forall u s1, transition (eps grp) d_p s = Next u s1 ->
                               is_Some (st_g s1)).
  { destruct Hs as [-> | [g1 Hg]].
    - rewrite transition_init. destruct (lt (norm d_p) (eps grp)); cbn;
        split; eauto; intros u s1 [= <- <-]; cbn; eauto.
    - rewrite (transition_update _ _ _ _ Hg). cbv zeta.
      destruct (lt (norm d_p) (eps grp)); [| destruct (st_d s)]; cbn;
        split; eauto; intros u s1 [= <- <-]; cbn; eauto. }
  destruct Ht as [Ht1 Ht2].
  destruct (transition (eps grp) d_p s) as [[] s1 | s1 | e s1]; cbn in Ht1;
    try exact Ht1.
  destruct (step_length_frame closure grp h p d_p alpha s1) as (Eg & _).
  rewrite Eg. exact Ht1.
Qed.

Lemma default_state_ok (st : gmap pid pstate) p :
  state_ok st ->
  default empty_state (st !! p) = empty_state
  \/ is_Some (st_g (default empty_state (st !! p))).
Proof.
  intros Hok. destruct (st !! p) as [s |] eqn:Hs; cbn; [right | left; reflexivity].
  exact (Hok p s Hs).
Qed.

Lemma step_param_ok closure grp p w :
  state_ok (w_state w) ->
  state_ok (w_state (world_of (step_param closure grp p w))).
Proof.
  intros Hok. destruct (grad (w_heap w p)) as [d_p |] eqn:Hgrad.
  - rewrite (step_param_state _ _ _ _ _ Hgrad). intros q s.
    destruct (decide (p = q)) as [-> | Hne].
    + rewrite lookup_insert_eq. intros [= <-].
      apply loop_body_keeps_g, default_state_ok, Hok.
    + rewrite lookup_insert_ne by exact Hne. apply Hok.
  - unfold step_param. rewrite Hgrad. exact Hok.
Qed.

Lemma step_work_ok closure l w :
  state_ok (w_state w) ->
  state_ok (w_state (world_of (step_work closure l w))).
Proof.
  revert w. induction l as [| [grp p] l IH]; intros w Hok; cbn; [exact Hok |].
  pose proof (step_param_ok closure grp p w Hok) as Hp.
  destruct (step_param closure grp p w) as [w' | w' | e w']; cbn in *; auto.
Qed.

(** Whatever a call of [step] does, it keeps the invariant. *)
Lemma step_ok (self : optimizer) closure (h : heap) :
  state_ok (state self) ->
  state_ok (state (result_optimizer (step self closure h))).
Proof.
  intros Hok. unfold step. destruct (run_closure closure h) as [l h0].
  rewrite step_groups_work.
  pose proof (step_work_ok closure (iteration_order (param_groups self))
                (mkWorld h0 (state self) None) Hok) as Hw.
  destruct (step_work _ _ _) as [w' | w' | e w']; exact Hw.
Qed.

(** The state transition at a gradient whose norm is below [eps], on a
    dictionary that is empty or has the key ['g']: [return loss], with the
    gradient stored and the keys of the direction, the flag, the count and
    the matrix as they were. *)
Lemma transition_small_returns (e : Q) g s :
  s = empty_state \/ is_Some (st_g s) ->
  lt (norm g) e = true ->
  exists s1,
    transition e g s = Returned s1
    /\ st_g s1 = Some g /\ st_d s1 = st_d s /\ st_index s1 = st_index s
    /\ st_step s1 = st_step s /\ st_A s1 = st_A s.
Proof.
  intros [-> | [g1 Hg]] Hlt.
  - rewrite transition_init, Hlt. eexists. split; [reflexivity |].
    repeat split.
  - rewrite (transition_update _ _ _ _ Hg). cbv zeta. rewrite Hlt.
    eexists. split; [reflexivity |]. repeat split.
Qed.

(** C2.  A call of [step] in which the gradient of a parameter [p] (as the
    closure of this call left it) has a norm below the [eps] of its group.
    - The call does not get through the loop, a loss it returns is the one
      the closure computed, and the tensor of [p] is the one the closure
      left, however the call ends.
    - When the loop reaches [p] (the iterations before it have fallen
      through), the call returns with that loss; the memory and [self.state]
      are what the iterations before [p] left, but for the dictionary of
      [p], where the gradient is stored and the direction, flag, count and
      matrix are as before.  So no parameter after [p] is processed: a
      parameter the loop had not reached has the tensor the closure left and
      the dictionary (or none) it had before the call. *)
Theorem convergence_short_circuit (self : optimizer) closure (h : heap) p g :
  state_ok (state self) ->
  grad ((run_closure closure h).2 p) = Some g ->
  p ∈ (iteration_order (param_groups self)).*2 ->
  (forall grp, (grp, p) ∈ iteration_order (param_groups self) ->
     lt (norm g) (eps grp) = true) ->
  let start := mkWorld (run_closure closure h).2 (state self) None in
  (forall w, step_groups closure (param_groups self) start <> Continue w)
  /\ (forall l' h' self',
        step self closure h = StepReturn l' h' self' ->
        l' = (run_closure closure h).1)
  /\ data (result_heap (step self closure h) p) = data ((run_closure closure h).2 p)
  /\ (forall (pre post : list (defaults * pid)) grp w1,
        iteration_order (param_groups self) = (pre ++ (grp, p) :: post)%list ->
        step_work closure pre start = Continue w1 ->
        exists s',
          step self closure h =
            StepReturn (run_closure closure h).1 (w_heap w1)
              (mkOptimizer (param_groups self) (<[p := s']> (w_state w1)))
          /\ (st_g s' = Some g
              /\ let s0 := default empty_state (w_state w1 !! p) in
                 st_d s' = st_d s0 /\ st_index s' = st_index s0
                 /\ st_step s' = st_step s0 /\ st_A s' = st_A s0)
          /\ (forall q, q <> p -> q ∉ pre.*2 ->
              data (w_heap w1 q) = data ((run_closure closure h).2 q)
              /\ <[p := s']> (w_state w1) !! q = state self !! q)).
Proof.
  intros Hok Hgrad Hin Hlt start. subst start. unfold step.
  destruct (run_closure closure h) as [l h0]. cbn [fst snd] in *.
  set (start := mkWorld h0 (state self) None).
  destruct (step_work_small closure (iteration_order (param_groups self)) start
              p g Hgrad Hlt) as [Hpast Hdata].
  rewrite step_groups_work. split; [| split; [| split]].
  - intros w Hw. exact (Hpast w Hw Hin).
  - intros l' h' self'.
    destruct (step_work _ _ _) as [w' | w' | e w']; intros [= <- _ _]; reflexivity.
  - destruct (step_work _ _ _) as [w' | w' | e w']; exact Hdata.
  - intros pre post grp w1 Hord Hpre.
    pose proof (step_work_grad closure pre start p) as Hg1.
    pose proof (step_work_ok closure pre start Hok) as Hok1.
    rewrite Hpre in Hg1, Hok1. cbn in Hg1, Hok1. rewrite Hgrad in Hg1.
    assert (Hsmall : lt (norm g) (eps grp) = true).
    { apply Hlt. rewrite Hord. apply elem_of_app. right. left. }
    destruct (transition_small_returns (eps grp) g
                (default empty_state (w_state w1 !! p))
                (default_state_ok _ p Hok1) Hsmall) as (s1 & Ht & Hfields).
    exists s1. split; [| split; [exact Hfields |]].
    + rewrite Hord, step_work_app, Hpre. cbn [step_work].
      unfold step_param. rewrite Hg1.
      rewrite (loop_body_returned _ _ _ _ _ _ _ _ Ht). reflexivity.
    + intros q Hne Hnot.
      destruct (step_work_frame closure pre start q (or_introl Hnot)) as [Hd Hs].
      rewrite Hpre in Hd, Hs. cbn in Hd, Hs.
      rewrite lookup_insert_ne by congruence. auto.
Qed.

(** C8.  A parameter [p] whose gradient is undefined when the closure of the
    call has run: its iteration does nothing and the loop goes on with the
    next parameter; and however the call ends, the tensor of [p] is the one
    the closure left, its gradient is still undefined, and its dictionary in
    [self.state] (or the absence of one) is as before the call. *)
Theorem skip_on_missing_gradient (self : optimizer) closure (h : heap) p :
  grad ((run_closure closure h).2 p) = None ->
  (forall grp w, grad (w_heap w p) = None -> step_param closure grp p w = Continue w)
  /\ data (result_heap (step self closure h) p) = data ((run_closure closure h).2 p)
  /\ grad (result_heap (step self closure h) p) = None
  /\ state (result_optimizer (step self closure h)) !! p = state self !! p.
Proof.
  intros Hgrad. split.
  - intros grp w Hw. unfold step_param. rewrite Hw. reflexivity.
  - unfold step. destruct (run_closure closure h) as [l h0]. cbn [fst snd] in *.
    rewrite step_groups_work.
    destruct (step_work_frame closure (iteration_order (param_groups self))
                (mkWorld h0 (state self) None) p (or_intror Hgrad)) as [Hd Hs].
    pose proof (step_work_grad closure (iteration_order (param_groups self))
                  (mkWorld h0 (state self) None) p) as Hg.
    cbn in Hg. rewrite Hgrad in Hg.
    destruct (step_work _ _ _) as [w' | w' | e w']; cbn in *; auto.
Qed.

End Properties.

(** ** The constructor *)

Lemma mod1_integer (x : Q) :
  Qeq_bool (mod1 x) 0 = true <-> exists n : Z, (x == inject_Z n)%Q.
Proof.
  rewrite Qeq_bool_iff. unfold mod1. split.
  - intros Hx. exists (Qfloor x). lra.
  - intros [n Hn]. rewrite Hn at 2. rewrite Qfloor_Z. lra.
Qed.

(** The last check: [max_ls % 1 != 0 or max_ls <= 0] is false exactly for
    the positive integers. *)
Lemma max_ls_check (x : Q) :
  negb (Qeq_bool (mod1 x) 0) || Qle_bool x 0 = false
  <-> exists n : Z, (0 < n)%Z /\ (x == inject_Z n)%Q.
Proof.
  rewrite orb_false_iff, negb_false_iff, mod1_integer.
  assert (Hlt : Qle_bool x 0 = false <-> (0 < x)%Q).
  { rewrite <- Qltb_lt. unfold Qltb. apply iff_sym, negb_true_iff. }
  rewrite Hlt. split.
  - intros [[n Hn] Hx]. exists n. split; [| exact Hn].
    rewrite Hn in Hx. rewrite (Zlt_Qlt 0 n). exact Hx.
  - intros (n & Hpos & Hn). split; [exists n; exact Hn |].
    rewrite Hn. rewrite (Zlt_Qlt 0 n) in Hpos. exact Hpos.
Qed.

Lemma check_arguments_accepts (cfg : defaults) :
  accepted_ranges cfg -> check_arguments cfg = inr (warnings_of cfg).
Proof.
  intros (He & Hls & Hc1 & Hc1' & Hc2 & Hc2' & Hlr & Hrho & Hrho' & Heta & Hamax & Hm).
  unfold check_arguments.
  rewrite (proj2 (Qltb_ge _ _) He), (bool_decide_eq_true_2 _ Hls).
  rewrite (proj2 (Qltb_lt _ _) Hc1), (proj2 (Qltb_lt _ _) Hc1').
  rewrite (proj2 (Qltb_lt _ _) Hc2), (proj2 (Qltb_lt _ _) Hc2').
  rewrite (proj2 (Qltb_ge _ _) Hlr).
  rewrite (proj2 (Qltb_lt _ _) Hrho), (proj2 (Qltb_lt _ _) Hrho').
  rewrite (proj2 (Qltb_lt _ _) Heta), (proj2 (Qltb_lt _ _) Hamax).
  rewrite (proj2 (max_ls_check _) Hm). reflexivity.
Qed.

Lemma check_arguments_accepted (cfg : defaults) ws :
  check_arguments cfg = inr ws -> accepted_ranges cfg.
Proof.
  unfold check_arguments, accepted_ranges.
  destruct (Qltb (eps cfg) 0) eqn:He; [discriminate |].
  destruct (bool_decide (line_search cfg ∈ line_search_options)) eqn:Hls;
    [| discriminate].
  destruct (Qltb 0 (c1 cfg)) eqn:Hc1; [| discriminate].
  destruct (Qltb (c1 cfg) (1 # 2)) eqn:Hc1'; [| discriminate].
  destruct (Qltb (c1 cfg) (c2 cfg)) eqn:Hc2; [| discriminate].
  destruct (Qltb (c2 cfg) 1) eqn:Hc2'; [| discriminate].
  destruct (Qltb (lr cfg) 0) eqn:Hlr; [discriminate |].
  destruct (Qltb 0 (rho cfg)) eqn:Hrho; [| discriminate].
  destruct (Qltb (rho cfg) 1) eqn:Hrho'; [| discriminate].
  destruct (Qltb 1 (eta cfg)) eqn:Heta; [| discriminate].
  destruct (Qltb 0 (amax cfg)) eqn:Hamax; [| discriminate].
  destruct (negb (Qeq_bool (mod1 (max_ls cfg)) 0) || Qle_bool (max_ls cfg) 0)
    eqn:Hm; [discriminate |].
  intros _. cbn.
  apply Qltb_ge in He, Hlr.
  apply Qltb_lt in Hc1, Hc1', Hc2, Hc2', Hrho, Hrho', Heta, Hamax.
  apply bool_decide_eq_true_1 in Hls. apply max_ls_check in Hm.
  repeat split; assumption.
Qed.

Lemma check_arguments_raises (cfg : defaults) e :
  check_arguments cfg = inl e -> exists fmt v, e = ValueError fmt (Some v).
Proof.
  unfold check_arguments.
  repeat match goal with
         | |- context [if ?b then _ else _] => destruct b
         end;
    intros [= <-]; eauto.
Qed.


(** * Runs on binary64 tensors *)

Module Runs.
Import Float64 Inputs.

#[local] Existing Instance torch.
#[local] Existing Instance first_trial.

Local Open Scope float_scope.

(** C1 at [second_world]: [beta = 10 / 5] and the direction is
    [-(6, 8) + 2 * (-3, -4)]. *)
Lemma fletcher_reeves_direction_run :
  exists s',
    w_state (world_of (step_param (AG := hessian []) (Some three_closure)
                         three_options 0%nat second_world)) !! 0%nat = Some s'
    /\ st_d s' = Some [-12; -16]
    /\ st_beta s' = Some 2
    /\ st_g s' = Some [6; 8].
Proof.
  exact (fletcher_reeves_direction (AG := hessian []) (Some three_closure)
           three_options 0%nat second_world
           (mkState (Some [3; 4]) (Some [-3; -4]) (Some true) (Some 0%Z) None None)
           [3; 4] [-3; -4] [6; 8]
           eq_refl eq_refl eq_refl eq_refl eq_refl).
Defined.

(** C5 at the first parameter of [three]: gradient (3, 4). *)
Lemma first_iteration_direction_run :
  transition (1 # 1000) [3; 4] empty_state =
    Next tt (mkState (Some [3; 4]) (Some [-3; -4]) (Some true) (Some 0%Z) None None)
  /\ exists s',
      w_state (world_of (step_param (AG := hessian []) (Some three_closure)
                 three_options 0%nat
                 (mkWorld (snd (three_closure three_start)) ∅ None))) !! 0%nat
        = Some s'
      /\ st_g s' = Some [3; 4]
      /\ st_d s' = Some [-3; -4]
      /\ st_index s' = Some true
      /\ st_step s' = Some 0%Z.
Proof.
  exact (first_iteration_direction (AG := hessian []) (Some three_closure)
           three_options 0%nat
           (mkWorld (snd (three_closure three_start)) ∅ None) [3; 4]
           eq_refl eq_refl eq_refl).
Defined.

(** C10 at [second_world] with [eps = 20]: the new gradient (6, 8) has norm
    10. *)
Lemma early_return_partial_update_run :
  let s := mkState (Some [3; 4]) (Some [-3; -4]) (Some true) (Some 0%Z) None None in
  let s' := mkState (Some [6; 8]) (Some [-3; -4]) (Some true) (Some 0%Z) (Some 2) None in
  step_param (AG := hessian []) (Some three_closure) (arguments "Armijo" 20)
    0%nat second_world =
    ReturnLoss (mkWorld (w_heap second_world) (<[0%nat := s']> (w_state second_world))
                        None)
  /\ st_beta s' = Some 2
  /\ st_g s' = Some [6; 8]
  /\ st_d s' = st_d s
  /\ st_index s' = st_index s
  /\ st_step s' = st_step s
  /\ st_A s' = st_A s.
Proof.
  exact (early_return_partial_update (AG := hessian []) (Some three_closure)
           (arguments "Armijo" 20) 0%nat second_world
           (mkState (Some [3; 4]) (Some [-3; -4]) (Some true) (Some 0%Z) None None)
           [3; 4] [6; 8] eq_refl eq_refl eq_refl eq_refl).
Defined.

(** C9: the first call at [flat_start] returns with ['g'] alone in the
    dictionary. *)
Lemma missing_direction_key_run :
  let w := mkWorld (snd (flat_closure flat_start)) ∅ None in
  step_param (AG := hessian []) (Some flat_closure) three_options 0%nat w =
    ReturnLoss (mkWorld (w_heap w)
                  (<[0%nat := mkState (Some [0.000244140625; 0]) None None None
                                      None None]> ∅)
                  None)
  /\ forall closure' grp' w' s g g2,
      w_state w' !! 0%nat = Some s ->
      st_g s = Some g ->
      st_d s = None ->
      grad (w_heap w' 0%nat) = Some g2 ->
      lt (norm g2) (eps grp') = false ->
      step_param (AG := hessian []) closure' grp' 0%nat w' =
        Exception (KeyError "d")
          (mkWorld (w_heap w')
             (<[0%nat := set_g g2 (set_beta (div (norm g2) (norm g)) s)]>
                (w_state w'))
             (w_alpha w')).
Proof.
  exact (missing_direction_key (AG := hessian []) (Some flat_closure)
           three_options 0%nat
           (mkWorld (snd (flat_closure flat_start)) ∅ None)
           [0.000244140625; 0] eq_refl eq_refl eq_refl).
Defined.

(** C9 through two calls of [step]: the first finds the gradient below
    [eps], the second, where the gradient is (3, 4), raises [KeyError('d')]
    and leaves the parameter where it was. *)
Example missing_direction_key_two_calls :
  let r1 := step (AG := hessian []) (lone "Armijo") (Some flat_closure) flat_start in
  let r2 := step (AG := hessian []) (result_optimizer r1) (Some steep_closure)
              (result_heap r1) in
  (exists h self, r1 = StepReturn (Some 1) h self
     /\ state self !! 0%nat
        = Some (mkState (Some [0.000244140625; 0]) None None None None None))
  /\ (exists h self, r2 = StepRaise (KeyError "d") h self
        /\ data (h 0%nat) = [2; 2]).
Proof. cbv zeta. split; eexists _, _; split; reflexivity. Qed.

(** C3 at [square_world]: the exact policy on [f(x) = x^2] from 3. *)
Lemma exact_step_uses_cached_curvature_run :
  let w := square_world in
  let grp := arguments "None" (1 # 1000) in
  step_param (AG := scaling) (Some square) grp 0%nat w =
    Continue (mkWorld (set_data (w_heap w) 0%nat [0])
                (<[0%nat := mkState (Some [6]) (Some [-6]) (Some true) (Some 0%Z)
                                    None (Some [[2]])]> ∅)
                (Some 0.5)).
Proof.
  exact (proj1 (exact_step_uses_cached_curvature (AG := scaling) (Some square)
                  (arguments "None" (1 # 1000)) 0%nat square_world eq_refl)
           [6] [[2]] eq_refl eq_refl eq_refl eq_refl).
Defined.

(** C3 as the specification words it fails at [square_world]: the matrix that
    the first iteration stores is [_get_A] of the gradient [6], which is
    [[2]], and not [_get_A] of the direction [-6] the dictionary then holds,
    which is [[-2]]. *)
Lemma curvature_is_not_of_direction :
  exists s,
    w_state (world_of (step_param (AG := scaling) (Some square)
                         (arguments "None" (1 # 1000)) 0%nat square_world))
      !! 0%nat = Some s
    /\ st_d s = Some [-6]
    /\ st_A s = _get_A (AG := scaling) (w_heap square_world) 0%nat [6]
    /\ st_A s <> _get_A (AG := scaling) (w_heap square_world) 0%nat [-6].
Proof.
  eexists. split; [reflexivity |]. split; [reflexivity |].
  split; [reflexivity |].
  intros E. apply (f_equal (fun o =>
    match o with Some [[x]] => PrimFloat.ltb x 0 | _ => false end)) in E.
  discriminate E.
Qed.

(** C2 at [three]: the loop goes past parameter 0 and finds the gradient of
    parameter 1 below [eps]. *)
Lemma convergence_short_circuit_run :
  data (result_heap (step (AG := hessian []) three (Some three_closure)
                       three_start) 1%nat) = [2; 2]
  /\ exists s',
      step (AG := hessian []) three (Some three_closure) three_start =
        StepReturn (Some 7) (w_heap three_after_first)
          (mkOptimizer (param_groups three)
             (<[1%nat := s']> (w_state three_after_first)))
      /\ (st_g s' = Some [0.000244140625; 0]
          /\ st_d s' = None /\ st_index s' = None /\ st_step s' = None
          /\ st_A s' = None)
      /\ (forall q, q <> 1%nat -> q ∉ [(three_options, 0%nat)].*2 ->
          data (w_heap three_after_first q)
            = data (snd (three_closure three_start) q)
          /\ <[1%nat := s']> (w_state three_after_first) !! q = None).
Proof.
  assert (Hin : 1%nat ∈ (iteration_order (param_groups three)).*2).
  { cbn. right. left. }
  assert (Hlt : forall grp, (grp, 1%nat) ∈ iteration_order (param_groups three) ->
                            lt (norm [0.000244140625; 0]) (eps grp) = true).
  { intros grp Hg. cbn in Hg. rewrite !elem_of_cons in Hg.
    destruct Hg as [[= ->] | [[= ->] | [[= ->] | Hg]]]; try reflexivity.
    apply elem_of_nil in Hg. destruct Hg. }
  pose proof (convergence_short_circuit (AG := hessian []) three
                (Some three_closure) three_start 1%nat [0.000244140625; 0]
                state_ok_empty eq_refl Hin Hlt) as (_ & _ & Hdata & Hreach).
  split; [exact Hdata |].
  exact (Hreach [(three_options, 0%nat)] [(three_options, 2%nat)] three_options
           three_after_first eq_refl eq_refl).
Defined.

(** The same call, evaluated: the loss is the closure's, parameter 0 has
    moved, parameters 1 and 2 have not, and parameter 2 has no dictionary. *)
Example convergence_short_circuit_evaluated :
  let r := step (AG := hessian []) three (Some three_closure) three_start in
  (exists h self, r = StepReturn (Some 7) h self)
  /\ data (result_heap r 0%nat) = [-2; -3]
  /\ data (result_heap r 1%nat) = [2; 2]
  /\ data (result_heap r 2%nat) = [5; 5]
  /\ state (result_optimizer r) !! 1%nat
     = Some (mkState (Some [0.000244140625; 0]) None None None None None)
  /\ state (result_optimizer r) !! 2%nat = None.
Proof. cbv zeta. split; [eexists _, _; reflexivity |]. repeat split. Qed.

(** C8 at [three] with [gap_closure]. *)
Lemma skip_on_missing_gradient_run :
  (forall grp w, grad (w_heap w 1%nat) = None ->
     step_param (AG := hessian []) (Some gap_closure) grp 1%nat w = Continue w)
  /\ data (result_heap (step (AG := hessian []) three (Some gap_closure)
                         three_start) 1%nat) = [2; 2]
  /\ grad (result_heap (step (AG := hessian []) three (Some gap_closure)
                         three_start) 1%nat) = None
  /\ state (result_optimizer (step (AG := hessian []) three (Some gap_closure)
                               three_start)) !! 1%nat = None.
Proof.
  exact (skip_on_missing_gradient (AG := hessian []) three (Some gap_closure)
           three_start 1%nat eq_refl).
Defined.

(** The same call, evaluated: the parameters on both sides of parameter 1
    are updated. *)
Example skip_on_missing_gradient_evaluated :
  let r := step (AG := hessian []) three (Some gap_closure) three_start in
  data (result_heap r 0%nat) = [-2; -3]
  /\ data (result_heap r 1%nat) = [2; 2]
  /\ data (result_heap r 2%nat) = [4; 4]
  /\ state (result_optimizer r) !! 1%nat = None.
Proof. cbv zeta. repeat split. Qed.

(** C7, evaluated: two calls under Wolfe's policy.  The line search
    [first_trial] returns [lr / (k + 1)]: the first call moves by 1 along
    (-3, -4), the second by 1/2 along the new direction (-6, -8), and the
    count is 2 afterwards. *)
Example wolfe_iteration_count_evaluated :
  let r1 := step (AG := hessian []) (lone "Wolfe") (Some steep_closure) flat_start in
  let r2 := step (AG := hessian []) (result_optimizer r1) (Some steep_closure)
              (result_heap r1) in
  data (result_heap r1 0%nat) = [-1; -2]
  /\ (st_step <$> state (result_optimizer r1) !! 0%nat) = Some (Some 1%Z)
  /\ (st_d <$> state (result_optimizer r2) !! 0%nat) = Some (Some [-6; -8])
  /\ data (result_heap r2 0%nat) = [-4; -6]
  /\ (st_step <$> state (result_optimizer r2) !! 0%nat) = Some (Some 2%Z).
Proof. cbv zeta. repeat split. Qed.


(** The strict bounds of the other arguments, and a negative [eps], raise;
    the default arguments construct the optimizer. *)
Example constructor_evaluated :
  check_arguments (mkDefaults (-1 # 1000) "Armijo" (1 # 10000) (4 # 10) 1%Q
                     (1 # 2) 5%Q (6 # 10) 10%Q)
    = inl (ValueError "Invalid epsilon value: {}" (Some (PyNum (-1 # 1000))))
  /\ check_arguments (mkDefaults (1 # 1000) "Armijo" (1 # 2) (6 # 10) 1%Q
                        (1 # 2) 5%Q (6 # 10) 10%Q)
     = inl (ValueError "Invalid c1 value: {}" (Some (PyNum (1 # 2))))
  /\ check_arguments (mkDefaults (1 # 1000) "Armijo" (1 # 10000) (4 # 10) 1%Q
                        1%Q 5%Q (6 # 10) 10%Q)
     = inl (ValueError "Invalid rho value: {}" (Some (PyNum 1%Q)))
  /\ check_arguments (mkDefaults (1 # 1000) "Armijo" (1 # 10000) (4 # 10) 1%Q
                        (1 # 2) 1%Q (6 # 10) 10%Q)
     = inl (ValueError "Invalid eta value: {}" (Some (PyNum 1%Q)))
  /\ check_arguments (mkDefaults (1 # 1000) "Armijo" (1 # 10000) (4 # 10) 1%Q
                        (1 # 2) 5%Q (6 # 10) (5 # 2))
     = inl (ValueError "Invalid max_ls value: {}" (Some (PyNum (5 # 2))))
  /\ check_arguments (mkDefaults (1 # 1000) "Newton" (1 # 10000) (4 # 10) 1%Q
                        (1 # 2) 5%Q (6 # 10) 10%Q)
     = inl (ValueError "Invalid line search: {}" (Some (PyStr "Newton")))
  /\ FR_init [0%nat] default_arguments =
     Constructed (mkOptimizer [mkGroup default_arguments [0%nat]] ∅) [].
Proof. repeat split. Qed.

(** C6.  The exact policy on the quadratic [f(x, y) = (x^2 + 2 y^2) / 2], a
    parameter of dimension 2, from (3, 2) with [eps = 0.001]: when two calls
    of [step] have been made, the gradient the closure computes has a norm
    above 1, which is not below [eps]. *)
Theorem ellipse_not_minimized_in_two_steps :
  let r1 := step (AG := hessian ellipse_A) (lone "None") (Some ellipse)
              ellipse_start in
  let r2 := step (AG := hessian ellipse_A) (result_optimizer r1) (Some ellipse)
              (result_heap r1) in
  exists g,
    grad (snd (ellipse (result_heap r2)) 0%nat) = Some g
    /\ lt (norm g) (1 # 1000) = false
    /\ PrimFloat.ltb 1 (norm g) = true.
Proof. cbv zeta. eexists. split; [reflexivity |]. split; reflexivity. Qed.

(** The coefficient of the second call is the quotient of the norms; with
    the quotient of their squares the new direction would have been
    conjugate to the first. *)
Example ellipse_second_direction :
  let r1 := step (AG := hessian ellipse_A) (lone "None") (Some ellipse)
              ellipse_start in
  let r2 := step (AG := hessian ellipse_A) (result_optimizer r1) (Some ellipse)
              (result_heap r1) in
  exists s g1 g2,
    state (result_optimizer r1) !! 0%nat = Some (mkState (Some g1) (Some (neg g1))
      (Some true) (Some 0%Z) None (Some ellipse_A))
    /\ state (result_optimizer r2) !! 0%nat = Some s
    /\ st_g s = Some g2
    /\ st_beta s = Some (div (norm g2) (norm g1))
    /\ PrimFloat.ltb (PrimFloat.mul (div (norm g2) (norm g1))
                        (div (norm g2) (norm g1)))
                     (div (norm g2) (norm g1)) = true.
Proof. cbv zeta. eexists _, _, _. repeat split. Qed.

(** With the quotient of the squared norms as coefficient, the second step
    on the same problem reaches a point where the gradient norm is below
    [eps]. *)
Example ellipse_with_squared_coefficient :
  let r1 := step (AG := hessian ellipse_A) (lone "None") (Some ellipse)
              ellipse_start in
  let x1 := data (result_heap r1 0%nat) in
  let x2 := squared_coefficient_step x1 [3; 4] (matmul ellipse_A x1) in
  lt (norm (matmul ellipse_A x2)) (1 # 1000) = true.
Proof. reflexivity. Qed.

(** In dimension 1 the coefficient is never used before the minimum is
    reached: on [f(x) = x^2] from 3 one call of [step] gets to 0, where the
    gradient is 0. *)
Example square_minimized_in_one_step :
  let r1 := step (AG := scaling) (lone "None") (Some square) square_start in
  data (result_heap r1 0%nat) = [0]
  /\ grad (snd (square (result_heap r1)) 0%nat) = Some [0].
Proof. cbv zeta. split; reflexivity. Qed.

(** C7 at a dictionary whose count is 3: [Wolfe] is called with 3 (here it
    returns [lr / 4]) and the count read afterwards is 4. *)
Lemma wolfe_iteration_count_run :
  let s := mkState (Some [3; 4]) (Some [-3; -4]) (Some false) (Some 3%Z) None None in
  step_length (AG := hessian []) (Some steep_closure) (arguments "Wolfe" (1 # 1000))
    flat_start 0%nat [3; 4] None s =
  Next (Some 0.25) (set_step 4 s)
  /\ st_step (state_of (step_length (AG := hessian []) (Some steep_closure)
                          (arguments "Wolfe" (1 # 1000)) flat_start 0%nat
                          [3; 4] None s)) = Some 4%Z.
Proof.
  exact (proj1 (proj1 (wolfe_iteration_count (AG := hessian []) (Some steep_closure)
                         (arguments "Wolfe" (1 # 1000)) 0%nat second_world
                         flat_start [3; 4] None
                         (mkState (Some [3; 4]) (Some [-3; -4]) (Some false)
                                  (Some 3%Z) None None)) eq_refl)
           3%Z [-3; -4] eq_refl eq_refl).
Defined.


End Runs.

(** * Further properties of [step] *)

Section Coverage.
Context {T : Torch} {loss : Type} {LS : LineSearch loss} {AG : Autograd}.

Implicit Types (s : pstate) (w : world) (p q : pid) (g d_p : tensor).
Implicit Types (closure : option (closure_t loss)) (grp : defaults).

(** A property of the worlds between iterations that every iteration keeps
    (or ends the loop with an outcome in [Q]) holds when the loop ends. *)
Lemma step_work_outcome closure (P : world -> Prop) (Q : outcome -> Prop)
    (l : list (defaults * pid)) w :
  (forall w', P w' -> Q (Continue w')) ->
  (forall grp p w', (grp, p) ∈ l -> P w' ->
     match step_param closure grp p w' with
     | Continue w'' => P w''
     | o => Q o
     end) ->
  P w ->
  Q (step_work closure l w).
Proof.
  intros Hend. revert w. induction l as [| [grp p] l IH]; intros w Hstep Hw; cbn.
  - apply Hend, Hw.
  - pose proof (Hstep grp p w ltac:(left) Hw) as Hp.
    destruct (step_param closure grp p w) as [w' | w' | e w']; try exact Hp.
    apply IH; [| exact Hp].
    intros grp' p' w'' Hin. apply Hstep. right. exact Hin.
Qed.

(** X1.  [step] does not write a gradient: when the call ends, however it
    ends, every parameter has the gradient the closure left. *)
Theorem step_keeps_gradients (self : optimizer) closure (h : heap) q :
  grad (result_heap (step self closure h) q) = grad ((run_closure closure h).2 q).
Proof.
  unfold step. destruct (run_closure closure h) as [l h0]. cbn [fst snd].
  rewrite step_groups_work.
  pose proof (step_work_grad closure (iteration_order (param_groups self))
                (mkWorld h0 (state self) None) q) as Hg.
  destruct (step_work _ _ _) as [w' | w' | e w']; exact Hg.
Qed.

(** X2.  A parameter that is in no group of the optimizer: however the call
    ends, its tensor is the one the closure left and its entry in
    [self.state] (or the absence of one) is as before the call. *)
Theorem step_leaves_other_parameters (self : optimizer) closure (h : heap) q :
  q ∉ (iteration_order (param_groups self)).*2 ->
  data (result_heap (step self closure h) q) = data ((run_closure closure h).2 q)
  /\ state (result_optimizer (step self closure h)) !! q = state self !! q.
Proof.
  intros Hq. unfold step. destruct (run_closure closure h) as [l h0].
  cbn [fst snd]. rewrite step_groups_work.
  destruct (step_work_frame closure (iteration_order (param_groups self))
              (mkWorld h0 (state self) None) q (or_introl Hq)) as [Hd Hs].
  destruct (step_work _ _ _) as [w' | w' | e w']; cbn in *; auto.
Qed.

(** When the state transition falls through, the dictionary has the new
    gradient and a direction. *)
Lemma transition_next (e : Q) d_p s u s1 :
  transition e d_p s = Next u s1 ->
  lt (norm d_p) e = false /\ st_g s1 = Some d_p /\ is_Some (st_d s1).
Proof.
  unfold transition, mbind, body_bind, mret, body_ret, state_len, item, store,
    return_loss.
  destruct s as [[g1 |] [d1 |] [i1 |] [k1 |] [b1 |] [a1 |]]; cbn;
    destruct (lt (norm d_p) e); intros [= ?]; subst; cbn; eauto.
Qed.


(** The iteration of a parameter whose dictionary has ['g'] and no ['d']
    does not fall through, and leaves such a dictionary and the memory as it
    is. *)
Lemma step_param_without_direction closure grp p w s :
  w_state w !! p = Some s ->
  is_Some (st_g s) ->
  st_d s = None ->
  w_heap (world_of (step_param closure grp p w)) = w_heap w
  /\ exists s', w_state (world_of (step_param closure grp p w)) !! p = Some s'
               /\ is_Some (st_g s') /\ st_d s' = None.
Proof.
  intros Hs [g1 Hg] Hd. unfold step_param.
  destruct (grad (w_heap w p)) as [d_p |]; [| cbn; eauto].
  rewrite Hs. cbn [default].
  pose proof (transition_update (eps grp) d_p s g1 Hg) as Ht. cbv zeta in Ht.
  rewrite Hd in Ht. destruct (lt (norm d_p) (eps grp)).
  - rewrite (loop_body_returned _ _ _ _ _ _ _ _ Ht). cbn.
    split; [reflexivity |]. eexists. rewrite lookup_insert_eq.
    split; [reflexivity |]. cbn. eauto.
  - rewrite (loop_body_raised _ _ _ _ _ _ _ _ _ Ht). cbn.
    split; [reflexivity |]. eexists. rewrite lookup_insert_eq.
    split; [reflexivity |]. cbn. eauto.
Qed.

(** X4.  A parameter whose dictionary has ['g'] and no ['d'] (its first
    gradient was below [eps]) is not updated by [step] again: however a call
    ends, its tensor is the one the closure left and its dictionary still
    has ['g'] and no ['d']. *)
Theorem never_updated_without_direction (self : optimizer) closure (h : heap) p s :
  state self !! p = Some s ->
  is_Some (st_g s) ->
  st_d s = None ->
  data (result_heap (step self closure h) p) = data ((run_closure closure h).2 p)
  /\ exists s',
      state (result_optimizer (step self closure h)) !! p = Some s'
      /\ is_Some (st_g s') /\ st_d s' = None.
Proof.
  intros Hs Hg Hd. unfold step. destruct (run_closure closure h) as [l h0].
  cbn [fst snd]. rewrite step_groups_work.
  set (P := fun w : world =>
    data (w_heap w p) = data (h0 p)
    /\ exists s', w_state w !! p = Some s' /\ is_Some (st_g s') /\ st_d s' = None).
  assert (Hend : P (world_of (step_work closure (iteration_order (param_groups self))
                               (mkWorld h0 (state self) None)))).
  { apply (step_work_outcome closure P (fun o => P (world_of o))).
    - intros w' Hw'. exact Hw'.
    - intros grp p0 w' _ (Hdata & s' & Hs' & Hg' & Hd').
      assert (Hp : P (world_of (step_param closure grp p0 w'))).
      { destruct (decide (p0 = p)) as [-> | Hne].
        - destruct (step_param_without_direction closure grp p w' s' Hs' Hg' Hd')
            as [Hheap Hdict].
          split; [rewrite Hheap; exact Hdata | exact Hdict].
        - destruct (step_param_frame closure grp p0 w' p
                      (or_introl (not_eq_sym Hne))) as [Hd1 Hs1].
          split; [congruence |]. exists s'. rewrite Hs1. auto. }
      destruct (step_param closure grp p0 w'); exact Hp.
    - split; [reflexivity |]. exists s. auto. }
  destruct (step_work _ _ _) as [w' | w' | e w']; exact Hend.
Qed.


(** Under one of the four policies, the loop body keeps the shape of the
    dictionary (starting from an empty one too), and the exceptions it can
    raise are those of [step_exception]. *)
Lemma loop_body_shaped closure grp (h : heap) p d_p (alpha : option scalar) s :
  line_search grp ∈ line_search_options ->
  s = empty_state \/ shaped s ->
  shaped (state_of (loop_body closure grp h p d_p alpha s))
  /\ (forall e s', loop_body closure grp h p d_p alpha s = Raised e s' ->
                   step_exception (line_search grp) e).
Proof.
  intros Hin Hs. unfold line_search_options in Hin.
  rewrite !elem_of_cons in Hin.
  destruct s as [sg sd si sk sb sa].
  assert (Hfields :
    (sg = None /\ sd = None /\ si = None /\ sk = None /\ sb = None /\ sa = None)
    \/ (is_Some sg /\ (is_Some sd -> is_Some si /\ is_Some sk))).
  { destruct Hs as [[= -> -> -> -> -> ->] | Hs];
      [left; repeat split | right; exact Hs]. }
  clear Hs.
  unfold shaped, step_exception, loop_body, transition, step_length,
    differentiated, mbind, body_bind, mret, body_ret, state_len, item, store,
    return_loss, raise.
  destruct Hin as [E | [E | [E | [E | E]]]];
    [| | | | apply elem_of_nil in E; destruct E];
    rewrite E in *; clear E;
    repeat (case_bool_decide; try congruence).
  all: destruct Hfields as [(-> & -> & -> & -> & -> & ->) | ([g1 ->] & Hd)]; cbn.
  all: try (destruct sd as [d1 |];
            [destruct (Hd ltac:(eauto)) as ([i1 ->] & [k1 ->]) | clear Hd]).
  all: try destruct sa as [a1 |].
  all: destruct (_get_A h p d_p) as [A1 |], (lt (norm d_p) (eps grp)); cbn.
  all: (split;
        [ split;
          [ eauto
          | intros [? Hx]; try discriminate Hx; split; eauto ]
        | intros e s' He; try discriminate He;
          try (injection He as <- _;
               first [ left; reflexivity
                     | right; split; [reflexivity |];
                       first [left; reflexivity | right; reflexivity] ]) ]).
Qed.

Lemma step_param_shaped closure grp p w :
  line_search grp ∈ line_search_options ->
  state_shaped (w_state w) ->
  state_shaped (w_state (world_of (step_param closure grp p w)))
  /\ (forall e w', step_param closure grp p w = Exception e w' ->
                   step_exception (line_search grp) e).
Proof.
  intros Hin Hok. unfold step_param.
  destruct (grad (w_heap w p)) as [d_p |]; [| split; [exact Hok | discriminate]].
  destruct (loop_body_shaped closure grp (w_heap w) p d_p (w_alpha w)
              (default empty_state (w_state w !! p)) Hin) as [Hsh Hexc].
  { destruct (w_state w !! p) as [s |] eqn:Hs; cbn; [right | left; reflexivity].
    exact (Hok p s Hs). }
  assert (Hins : forall s', shaped s' -> state_shaped (<[p := s']> (w_state w))).
  { intros s' Hs' q s0. destruct (decide (p = q)) as [-> | Hne].
    - rewrite lookup_insert_eq. intros [= <-]. exact Hs'.
    - rewrite lookup_insert_ne by exact Hne. apply Hok. }
  destruct (loop_body _ _ _ _ _ _ _) as [[d a] s' | s' | e s']; cbn in *;
    (split; [apply Hins, Hsh |]); try discriminate.
  intros e' w' [= <- _]. exact (Hexc e s' eq_refl).
Qed.

(** The options a pair of [iteration_order] carries are those of a group. *)
Lemma iteration_order_options (gs : list group) grp p :
  (grp, p) ∈ iteration_order gs ->
  exists G : group, G ∈ gs /\ grp = options G /\ p ∈ params G.
Proof.
  unfold iteration_order. rewrite list_elem_of_In, in_flat_map.
  intros (G & HG & Hin). apply in_map_iff in Hin as (p' & [= <- <-] & Hp).
  exists G. rewrite !list_elem_of_In. auto.
Qed.



End Coverage.

(** * Further properties of the constructor *)

Definition ok_c1 (cfg : defaults) : Prop := (0 < c1 cfg)%Q /\ (c1 cfg < 1 # 2)%Q.
Definition ok_c2 (cfg : defaults) : Prop := (c1 cfg < c2 cfg)%Q /\ (c2 cfg < 1)%Q.
Definition ok_rho (cfg : defaults) : Prop := (0 < rho cfg)%Q /\ (rho cfg < 1)%Q.
Definition ok_max_ls (cfg : defaults) : Prop :=
  exists n : Z, (0 < n)%Z /\ (max_ls cfg == inject_Z n)%Q.

Definition invalid (what : string) (v : pyval) : exn :=
  ValueError ("Invalid " ++ what ++ ": {}") (Some v).

(** One check: when [F] holds the error is [E]; otherwise [O] holds and the
    later checks decide. *)
Definition failing (F : Prop) (E : exn) (O : Prop) (later : exn -> Prop)
  : exn -> Prop :=
  fun e => (F /\ e = E) \/ (O /\ later e).

(** [e] is the error of the first check that fails, the checks being made in
    the order [eps], [line_search], [c1], [c2], [lr], [rho], [eta], [amax],
    [max_ls]. *)
Definition first_failure (cfg : defaults) : exn -> Prop :=
  failing (eps cfg < 0)%Q (invalid "epsilon value" (PyNum (eps cfg)))
    (0 <= eps cfg)%Q
  (failing (line_search cfg ∉ line_search_options)
    (invalid "line search" (PyStr (line_search cfg)))
    (line_search cfg ∈ line_search_options)
  (failing (~ ok_c1 cfg) (invalid "c1 value" (PyNum (c1 cfg))) (ok_c1 cfg)
  (failing (~ ok_c2 cfg) (invalid "c2 value" (PyNum (c2 cfg))) (ok_c2 cfg)
  (failing (lr cfg < 0)%Q (invalid "lr value" (PyNum (lr cfg))) (0 <= lr cfg)%Q
  (failing (~ ok_rho cfg) (invalid "rho value" (PyNum (rho cfg))) (ok_rho cfg)
  (failing (eta cfg <= 1)%Q (invalid "eta value" (PyNum (eta cfg)))
    (1 < eta cfg)%Q
  (failing (amax cfg <= 0)%Q (invalid "amax value" (PyNum (amax cfg)))
    (0 < amax cfg)%Q
  (fun e => ~ ok_max_ls cfg
            /\ e = invalid "max_ls value" (PyNum (max_ls cfg)))))))))).

(** One check of the chain: [b] is the condition of the [if], true when the
    check fails. *)
Lemma check_level (b : bool) (F O : Prop) (E e : exn) (rest : exn + list string)
    (NEXT : Prop) :
  (b = true <-> F) -> (b = false <-> O) -> (rest = inl e <-> NEXT) ->
  (if b then inl E else rest) = inl e <-> (F /\ e = E) \/ (O /\ NEXT).
Proof.
  intros HF HO Hrest. destruct b.
  - split.
    + intros [= <-]. left. split; [apply HF; reflexivity | reflexivity].
    + intros [[_ ->] | [HO' _]]; [reflexivity |]. apply HO in HO'. discriminate.
  - rewrite Hrest. split.
    + intros Hn. right. split; [apply HO; reflexivity | exact Hn].
    + intros [[HF' _] | [_ Hn]]; [| exact Hn]. apply HF in HF'. discriminate.
Qed.

Lemma negb_both_lt (a b c d : Q) :
  (negb (Qltb a b && Qltb c d) = true <-> ~ ((a < b)%Q /\ (c < d)%Q))
  /\ (negb (Qltb a b && Qltb c d) = false <-> (a < b)%Q /\ (c < d)%Q).
Proof.
  rewrite negb_true_iff, negb_false_iff, <- not_true_iff_false, andb_true_iff,
    !Qltb_lt. tauto.
Qed.

Lemma negb_lt (a b : Q) :
  (negb (Qltb a b) = true <-> (b <= a)%Q)
  /\ (negb (Qltb a b) = false <-> (a < b)%Q).
Proof. rewrite negb_true_iff, negb_false_iff, Qltb_ge, Qltb_lt. tauto. Qed.

Lemma check_arguments_first_failure (cfg : defaults) (e : exn) :
  check_arguments cfg = inl e <-> first_failure cfg e.
Proof.
  unfold check_arguments, first_failure, failing, invalid. cbv zeta.
  apply check_level; [apply Qltb_lt | apply Qltb_ge |].
  apply check_level.
  { rewrite negb_true_iff. apply bool_decide_eq_false. }
  { rewrite negb_false_iff. apply bool_decide_eq_true. }
  apply check_level; [apply negb_both_lt | apply negb_both_lt |].
  apply check_level; [apply negb_both_lt | apply negb_both_lt |].
  apply check_level; [apply Qltb_lt | apply Qltb_ge |].
  apply check_level; [apply negb_both_lt | apply negb_both_lt |].
  apply check_level; [apply negb_lt | apply negb_lt |].
  apply check_level; [apply negb_lt | apply negb_lt |].
  pose proof (max_ls_check (max_ls cfg)) as Hm. fold (ok_max_ls cfg) in Hm.
  destruct (negb (Qeq_bool (mod1 (max_ls cfg)) 0) || Qle_bool (max_ls cfg) 0).
  - split.
    + intros [= <-]. split; [| reflexivity].
      intros Hok. apply Hm in Hok. discriminate.
    + intros [_ ->]. reflexivity.
  - split; [discriminate |]. intros [Hno _]. destruct Hno. apply Hm. reflexivity.
Qed.

(** X6.  The constructor raises exactly in these cases: a check of an
    argument fails, and the error is [ValueError] with the message and the
    value of the first argument, in the order of the signature, that is
    outside its range (whatever the later arguments are); or all arguments
    are in range and the parameter list is empty. *)
Theorem constructor_raises_first_failure `{Torch} (ps : list pid)
    (cfg : defaults) (e : exn) :
  FR_init ps cfg = InitRaise e <->
  first_failure cfg e
  \/ (accepted_ranges cfg /\ ps = []
      /\ e = ValueError "optimizer got an empty parameter list" None).
Proof.
  rewrite <- check_arguments_first_failure. unfold FR_init.
  destruct (check_arguments cfg) as [e0 | ws] eqn:Hc.
  - split.
    + intros [= <-]. left. reflexivity.
    + intros [[= <-] | (Hacc & _)]; [reflexivity |].
      rewrite (check_arguments_accepts cfg Hacc) in Hc. discriminate.
  - pose proof (check_arguments_accepted cfg ws Hc) as Hacc.
    destruct ps as [| p ps]; cbn.
    + split.
      * intros [= <-]. right. auto.
      * intros [Hn | (_ & _ & ->)]; [discriminate | reflexivity].
    + split; [discriminate |].
      intros [Hn | (_ & Hps & _)]; discriminate.
Qed.

(** * Further runs on binary64 tensors *)

Module MoreRuns.
Import Float64 Inputs.

#[local] Existing Instance torch.
#[local] Existing Instance first_trial.

Local Open Scope float_scope.

(** A memory with a fourth tensor, which is no parameter of [three]. *)
Definition four_start : heap := memory [[1; 1]; [2; 2]; [5; 5]; [9; 9]].

Definition four_closure : closure_t float :=
  gradients 7 [Some [3; 4]; None; Some [1; 1]; Some [8; 8]].

(** The constructor call of the class docstring. *)
Definition docstring_arguments : defaults :=
  mkDefaults (1 # 1000) "Armijo" (1 # 10000) (4 # 10) 1%Q (1 # 2) (1 # 2)
             (6 # 10) 10%Q.

(** The optimizer that the first call at [flat_start] leaves. *)
Definition flat_optimizer : optimizer :=
  result_optimizer (step (AG := hessian []) (lone "Armijo") (Some flat_closure)
                      flat_start).

(** X2 at [three] with a fourth tensor that has a gradient too. *)
Lemma step_leaves_other_parameters_run :
  data (result_heap (step (AG := hessian []) three (Some four_closure)
                       four_start) 3%nat) = [9; 9]
  /\ state (result_optimizer (step (AG := hessian []) three (Some four_closure)
                               four_start)) !! 3%nat = None.
Proof.
  refine (step_leaves_other_parameters (AG := hessian []) three
            (Some four_closure) four_start 3%nat _).
  cbn. rewrite !not_elem_of_cons. repeat split; try discriminate.
  apply not_elem_of_nil.
Defined.


(** X4 at [flat_optimizer], in a call where the gradient is (3, 4). *)
Lemma never_updated_without_direction_run :
  data (result_heap (step (AG := hessian []) flat_optimizer (Some steep_closure)
                       flat_start) 0%nat) = [2; 2]
  /\ exists s',
      state (result_optimizer (step (AG := hessian []) flat_optimizer
                                 (Some steep_closure) flat_start)) !! 0%nat
        = Some s'
      /\ is_Some (st_g s') /\ st_d s' = None.
Proof.
  exact (never_updated_without_direction (AG := hessian []) flat_optimizer
           (Some steep_closure) flat_start 0%nat
           (mkState (Some [0.000244140625; 0]) None None None None None)
           eq_refl (ex_intro _ _ eq_refl) eq_refl).
Defined.


(** A closure that builds no graph for second derivatives: [_get_A] raises. *)
Definition no_graph : Autograd := {| grad_rows _ _ _ := None |}.

(** X5, evaluated under the exact policy with [no_graph]: the first call
    raises [RuntimeError] when ['d'], ['index'] and ['step'] are written and
    ['A'] is not, and the parameter is not moved; the next call raises
    [KeyError('A')]. *)
Example exact_policy_without_graph :
  let r1 := step (AG := no_graph) (lone "None") (Some steep_closure) flat_start in
  let r2 := step (AG := no_graph) (result_optimizer r1) (Some steep_closure)
              (result_heap r1) in
  (exists h self, r1 = StepRaise RuntimeError h self)
  /\ state (result_optimizer r1) !! 0%nat
     = Some (mkState (Some [3; 4]) (Some [-3; -4]) (Some true) (Some 0%Z)
                     None None)
  /\ data (result_heap r1 0%nat) = [2; 2]
  /\ (exists h self, r2 = StepRaise (KeyError "A") h self).
Proof.
  cbv zeta. split; [eexists _, _; reflexivity |]. split; [reflexivity |].
  split; [reflexivity |]. eexists _, _; reflexivity.
Qed.

(** X6 at the call of the class docstring, where [eta = 0.5]. *)
Lemma constructor_raises_first_failure_run :
  FR_init [0%nat] docstring_arguments
  = InitRaise (ValueError "Invalid eta value: {}" (Some (PyNum (1 # 2)))).
Proof.
  apply (proj2 (constructor_raises_first_failure [0%nat] docstring_arguments _)).
  left. apply check_arguments_first_failure. reflexivity.
Defined.


(** X8, evaluated: a second group whose line search is ['Newton'].  Its
    parameter moves by the step length 1 that the line search of the first
    group returned for the other parameter. *)
Example unknown_line_search_reuses_alpha :
  let self := mkOptimizer [mkGroup three_options [0%nat];
                           mkGroup (arguments "Newton" (1 # 1000)) [2%nat]] ∅ in
  let r := step (AG := hessian []) self (Some three_closure) three_start in
  (exists h self', r = StepReturn (Some 7) h self')
  /\ data (result_heap r 0%nat) = [-2; -3]
  /\ data (result_heap r 2%nat) = [4; 4].
Proof. cbv zeta. split; [eexists _, _; reflexivity |]. split; reflexivity. Qed.


End MoreRuns.
